(** * coordinate: the CRT solver and the CREATE2 vanity-address miners

    A shallow embedding of [Numbertheory.CRT] (main/Math.py) and of
    [BlockchainUtils.GetSpecialAddressByCreate2] and
    [BlockchainUtils.GetSpecialAddressByCreate2_two] (main/Blockchain.py),
    with the properties the specification states about them. *)

From Stdlib Require Import ZArith NArith List Lia Bool Arith.
From Stdlib Require Import Zdivisibility Zcong.
From Stdlib Require Import Ascii String HexString Strings.Byte.
From Stdlib Require Import DecimalString.
From Stdlib Require Import QArith.
Import ListNotations.
Close Scope Q_scope.

(** ** Python exceptions as an error monad *)

(** The exceptions the modelled code can raise.  [gmpy2.invert] raises
    [ZeroDivisionError("invert() no inverse exists")]; it is kept apart from
    the [ZeroDivisionError] of [//] and [%] under the name the specification
    gives it. *)
Inductive exn : Type :=
| TypeError          (* reduce() of empty sequence with no initial value *)
| ZeroDivisionError  (* integer division or modulo by zero *)
| NoInverseExists    (* gmpy2.invert: no inverse exists *)
| IndexError         (* list index out of range *)
| ValueError         (* Web3.keccak(hexstr=...) on a string that is not hex *)
| TimeOut.           (* Exception("time out,maybe a wrong position") *)

Inductive res (A : Type) : Type :=
| Ok (a : A)
| Raise (e : exn).
Arguments Ok {A} a.
Arguments Raise {A} e.

Definition bind {A B : Type} (m : res A) (k : A -> res B) : res B :=
  match m with
  | Ok a => k a
  | Raise e => Raise e
  end.

Declare Scope res_scope.
Delimit Scope res_scope with res.
Notation "x <- m ;; k" := (bind m (fun x => k))
  (at level 61, m at next level, right associativity) : res_scope.

Module Numbertheory.
Local Open Scope Z_scope.
Local Open Scope res_scope.

(** [reduce((lambda x, y : x * y), moudle)]: a left fold seeded with the
    first element; the empty list raises. *)
Definition reduce_mul (moudle : list Z) : res Z :=
  match moudle with
  | [] => Raise TypeError
  | x :: rest => Ok (fold_left Z.mul rest x)
  end.

(** Python's [//] and [%] on integers: floor division, the remainder takes
    the sign of the divisor, as [Z.div] and [Z.modulo] do. *)
Definition floordiv (a b : Z) : res Z :=
  if b =? 0 then Raise ZeroDivisionError else Ok (a / b).

Definition pymod (a b : Z) : res Z :=
  if b =? 0 then Raise ZeroDivisionError else Ok (a mod b).

(** [gmpy2.invert(x, m)]: the [y] with [0 <= y < |m|] and
    [x * y == 1 (mod m)]; raises when [m] is zero or no inverse exists.
    Modulo [1] or [-1] every [x] has the inverse [0]. *)
Definition invert (x m : Z) : res Z :=
  if m =? 0 then Raise ZeroDivisionError
  else if Z.gcd x m =? 1 then Ok (Z.invmod x (Z.abs m))
  else Raise NoInverseExists.

(** [moudle.index(mi)]: the first position holding a value equal to [mi]. *)
Fixpoint index (mi : Z) (moudle : list Z) : option nat :=
  match moudle with
  | [] => None
  | x :: rest => if x =? mi then Some 0%nat
                 else option_map S (index mi rest)
  end.

(** [a[moudle.index(mi)]]. *)
Definition getitem (a : list Z) (k : option nat) : res Z :=
  match k with
  | None => Raise IndexError
  | Some n => match nth_error a n with
              | Some v => Ok v
              | None => Raise IndexError
              end
  end.

(** The body of [for mi in moudle], threaded over the elements still to
    visit. *)
Fixpoint CRT_loop (M : Z) (moudle a rest : list Z) (result : Z) : res Z :=
  match rest with
  | [] => Ok result
  | mi :: rest' =>
      Mi <- floordiv M mi ;;
      inv_Mi <- invert Mi mi ;;
      ai <- getitem a (index mi moudle) ;;
      result' <- pymod (result + ai * Mi * inv_Mi) M ;;
      CRT_loop M moudle a rest' result'
  end.

Definition CRT (moudle a : list Z) : res Z :=
  M <- reduce_mul moudle ;;
  result <- CRT_loop M moudle a moudle 0 ;;
  pymod result M.

(** *** Vocabulary of the statements about [CRT] *)

(** The product of a list of moduli. *)
Definition prod (l : list Z) : Z := fold_right Z.mul 1 l.

(** The moduli are pairwise coprime, by position. *)
Definition pairwise_coprime (moudle : list Z) : Prop :=
  forall i j mi mj, i <> j ->
    nth_error moudle i = Some mi -> nth_error moudle j = Some mj ->
    Z.gcd mi mj = 1.

(** Every remainder lies in [0 .. modulus). *)
Definition in_range (moudle a : list Z) : Prop :=
  forall i m r, nth_error moudle i = Some m -> nth_error a i = Some r ->
    0 <= r < m.

(** The product of the moduli other than the one at position [i]. *)
Definition others (moudle : list Z) (i : nat) : Z :=
  prod (firstn i moudle ++ skipn (S i) moudle).

(** [x] solves the system: it is congruent to the remainder at every
    position, modulo the modulus there. *)
Definition solves (moudle a : list Z) (x : Z) : Prop :=
  forall i m r, nth_error moudle i = Some m -> nth_error a i = Some r ->
    x mod m = r mod m.

End Numbertheory.

Module BlockchainUtils.
Local Open Scope string_scope.

(** *** Python string operations used by the miners *)

Definition len (s : string) : Z := Z.of_nat (String.length s).

(** A slice bound [k] of a sequence of length [n]: negative bounds count
    from the end, and every bound is clamped into [0..n]. *)
Definition bound (n k : Z) : Z :=
  if (k <? 0)%Z then Z.max 0 (n + k) else Z.min k n.

(** [s[start:stop]], and [s[start:]] when [stop] is [None]. *)
Definition slice (s : string) (start : Z) (stop : option Z) : string :=
  let n := len s in
  let lo := bound n start in
  let hi := match stop with Some e => bound n e | None => n end in
  substring (Z.to_nat lo) (Z.to_nat (hi - lo)) s.

(** [sub in s] on strings. *)
Fixpoint contains (sub s : string) : bool :=
  prefix sub s ||
  match s with
  | EmptyString => false
  | String _ s' => contains sub s'
  end.

Fixpoint replicate (n : nat) (c : ascii) : string :=
  match n with
  | O => EmptyString
  | S n' => String c (replicate n' c)
  end.

(** [s.rjust(width, fill)]: pads on the left, never truncates. *)
Definition rjust (width : nat) (fill : ascii) (s : string) : string :=
  replicate (width - String.length s) fill ++ s.

(** [hex(i)] of a non-negative integer: ["0x"] and lowercase digits. *)
Definition hex (i : N) : string := HexString.of_N i.

Definition hexdigit (d : N) : ascii :=
  match d with
  | 0%N => "0" | 1%N => "1" | 2%N => "2" | 3%N => "3"
  | 4%N => "4" | 5%N => "5" | 6%N => "6" | 7%N => "7"
  | 8%N => "8" | 9%N => "9" | 10%N => "a" | 11%N => "b"
  | 12%N => "c" | 13%N => "d" | 14%N => "e" | _ => "f"
  end%char.

(** ['%02x' % b] for a byte [b]. *)
Definition fmt_02x (b : byte) : string :=
  let n := Byte.to_N b in
  String (hexdigit (n / 16)) (String (hexdigit (n mod 16)) EmptyString).

(** *** The outside world *)

(** What the miners take from outside: the hashing primitive
    [Web3.keccak(hexstr=s)], which raises on a string that is not hex, and
    the wall clock, given by the successive readings of [time.time()] in
    seconds (reading [0] is [start_time], reading [i + 1] is [current_time]
    of the iteration with counter [i]). *)
Record World : Type := {
  keccak : string -> option (list byte);
  time : nat -> Q
}.

(** *** The search loop *)

Inductive step (A : Type) : Type :=
| Continue
| Done (r : res A).
Arguments Continue {A}.
Arguments Done {A} r.

(** [while (1): ...; i += 1].  [None] when the fuel runs out before the body
    returns or raises. *)
Fixpoint while1 {A : Type} (body : nat -> step A) (fuel i : nat)
  : option (res A) :=
  match fuel with
  | O => None
  | S fuel' =>
      match body i with
      | Done r => Some r
      | Continue => while1 body fuel' (S i)
      end
  end.

(** [elapsed_time >= 10] at the iteration with counter [i]. *)
Definition timed_out (w : World) (i : nat) : bool :=
  let start_time := time w 0 in
  let current_time := time w (S i) in
  let elapsed_time := (current_time - start_time)%Q in
  Qle_bool 10 elapsed_time.

(** [salt = hex(i)[2:].rjust(64, '0')]. *)
Definition salt_of (i : nat) : string :=
  rjust 64 "0" (slice (hex (N.of_nat i)) 2 None).

(** [s], [hashed] and [address] of one iteration. *)
Definition address_of (w : World) (DeployAddress BytecodeHash salt : string)
  : res string :=
  let s := "0xff" ++ DeployAddress ++ salt ++ BytecodeHash in
  match keccak w s with
  | None => Raise ValueError
  | Some hashed => Ok (slice (concat "" (map fmt_02x hashed)) 24 None)
  end.

(** The [if]/[elif] chain of the single-constraint miner. *)
Definition satisfies (content : string) (position : Z) (address : string)
  : bool :=
  if (position =? 0)%Z &&
     contains content (slice address position (Some (position + len content)%Z))
  then true
  else if (position >? 0)%Z &&
     contains content (slice address position (Some (position + len content)%Z))
  then true
  else if (position <? 0)%Z && negb (position =? -4)%Z &&
     contains content (slice address position (Some (position + len content)%Z))
  then true
  else if (position =? -4)%Z && contains content (slice address position None)
  then true
  else false.

(** The condition of the two-constraint miner. *)
Definition satisfies_two (content1 content2 : string) (position1 position2 : Z)
  (address : string) : bool :=
  contains content1
    (slice address position1 (Some (position1 + len content1)%Z)) &&
  contains content2
    (slice address position2 (Some (position2 + len content2)%Z)).

(** One pass through the loop body with the test [ok] on the address. *)
Definition iteration (w : World) (DeployAddress BytecodeHash : string)
  (ok : string -> bool) (i : nat) : step (string * string) :=
  if timed_out w i then Done (Raise TimeOut)
  else
    let salt := salt_of i in
    match address_of w DeployAddress BytecodeHash salt with
    | Raise e => Done (Raise e)
    | Ok address =>
        if ok address then Done (Ok ("0x" ++ salt, "0x" ++ address))
        else Continue
    end.

(** The [try] block of [GetSpecialAddressByCreate2]. *)
Definition GetSpecialAddressByCreate2_try (w : World)
  (DeployAddress BytecodeHash content : string) (position : Z) (fuel : nat)
  : option (res (string * string)) :=
  while1 (iteration w DeployAddress BytecodeHash (satisfies content position))
    fuel 0.

(** [except Exception: ... return None]. *)
Definition catch_all {A : Type} (r : res A) : option A :=
  match r with
  | Ok a => Some a
  | Raise _ => None
  end.

(** The function as called: the outer [option] is the fuel, the inner one
    Python's [None] against the returned [(salt, address)]. *)
Definition GetSpecialAddressByCreate2 (w : World)
  (DeployAddress BytecodeHash content : string) (position : Z) (fuel : nat)
  : option (option (string * string)) :=
  option_map catch_all
    (GetSpecialAddressByCreate2_try w DeployAddress BytecodeHash content
       position fuel).

Definition GetSpecialAddressByCreate2_two_try (w : World)
  (DeployAddress BytecodeHash content1 content2 : string)
  (position1 position2 : Z) (fuel : nat) : option (res (string * string)) :=
  while1 (iteration w DeployAddress BytecodeHash
            (satisfies_two content1 content2 position1 position2))
    fuel 0.

Definition GetSpecialAddressByCreate2_two (w : World)
  (DeployAddress BytecodeHash content1 content2 : string)
  (position1 position2 : Z) (fuel : nat)
  : option (option (string * string)) :=
  option_map catch_all
    (GetSpecialAddressByCreate2_two_try w DeployAddress BytecodeHash
       content1 content2 position1 position2 fuel).

(** *** Vocabulary of the statements about the miners *)

(** The hashing primitive returns 32-byte digests. *)
Definition digest32 (w : World) : Prop :=
  forall s hashed, keccak w s = Some hashed -> List.length hashed = 32.

(** Bytes rendered as lowercase hex, two characters each. *)
Definition hexlify (bs : list byte) : string := concat "" (map fmt_02x bs).

Definition lower_hex (c : ascii) : bool :=
  existsb (Ascii.eqb c) (list_ascii_of_string "0123456789abcdef").

Fixpoint all_lower_hex (s : string) : bool :=
  match s with
  | EmptyString => true
  | String c s' => lower_hex c && all_lower_hex s'
  end.

(** The address derived for the counter value [i]. *)
Definition candidate (w : World) (DeployAddress BytecodeHash : string)
  (i : nat) : res string :=
  address_of w DeployAddress BytecodeHash (salt_of i).

(** [content] fills the characters of [address] from [offset] on. *)
Definition occupies (content : string) (offset : nat) (address : string)
  : Prop :=
  substring offset (String.length content) address = content.

(** The position semantics of a single constraint: a forward offset, an
    offset counted from the end for a negative position, and "anywhere in
    the last four characters" for the sentinel [-4]. *)
Definition appears_at (content : string) (position : Z) (address : string)
  : Prop :=
  if (position =? -4)%Z then
    contains content (substring (String.length address - 4) 4 address) = true
  else if (position <? 0)%Z then
    occupies content (Z.to_nat (len address + position)) address
  else
    occupies content (Z.to_nat position) address.

(** The negative positions at which the test of the single-constraint
    miner cannot succeed on a 40-character address: the window
    [address[position : position + len(content)]] reaches the end of the
    address, so that its upper bound is read from the front, or starts
    before the address. *)
Definition unmatchable (content : string) (position : Z) : Prop :=
  (position < 0)%Z /\ position <> (-4)%Z /\ content <> "" /\
  ((0 <= position + len content)%Z \/ (position < -40)%Z).

(** Two contents that demand different characters at a common offset. *)
Definition conflict (content1 content2 : string) : Prop :=
  exists n x y, get n content1 = Some x /\ get n content2 = Some y /\ x <> y.

(** The error taxonomy of the specification, and where each exception of
    the code falls in it. *)
Inductive failure : Type :=
| InvalidInput
| NoInverse
| Timeout.

Definition failure_of (e : exn) : failure :=
  match e with
  | TimeOut => Timeout
  | NoInverseExists => NoInverse
  | TypeError | ZeroDivisionError | IndexError | ValueError => InvalidInput
  end.

(** A world for examples: every digest is 31 zero bytes and [0xab], and the
    clock advances one second per reading. *)
Definition vanity : World := {|
  keccak := fun _ => Some (repeat x00 31 ++ [xab])%list;
  time := fun n => inject_Z (Z.of_nat n)
|}.

(** Another one, in which the digest depends on the salt: 31 zero bytes and
    the code of the last character of the hashed string. *)
Fixpoint last_byte (s : string) : byte :=
  match s with
  | EmptyString => x00
  | String c EmptyString => byte_of_ascii c
  | String _ s' => last_byte s'
  end.

Definition counting : World := {|
  keccak := fun s => Some (repeat x00 31 ++ [last_byte s])%list;
  time := fun n => inject_Z (Z.of_nat n)
|}.

(** *** Signatures *)

(** [hex(n)] of any integer: a negative one is written ["-0x..."]. *)
Definition hexZ (n : Z) : string := HexString.of_Z n.

(** The dictionary both signature functions return. *)
Record Parts : Type := {
  partSignature : string;
  partR : string;
  partS : string;
  partV : string
}.

(** [SignatureToRSV].  [int16] is Python's [int(s, 16)], [None] where it
    raises [ValueError]; that error and the failed [assert] both end in the
    [except] branch, which returns [None]. *)
Definition SignatureToRSV (int16 : string -> option Z) (Signature : string)
  : option Parts :=
  match int16 Signature with
  | None => None
  | Some n =>
      let Signature := hexZ n in
      if (len Signature =? 130 + 2)%Z then
        Some {| partSignature := Signature;
                partR := "0x" ++ slice Signature 2 (Some 66%Z);
                partS := "0x" ++ slice Signature 66 (Some (-2)%Z);
                partV := "0x" ++ slice Signature (-2) None |}
      else None
  end.

(** [RSVToSignature]. *)
Definition RSVToSignature (int16 : string -> option Z) (R S V : string)
  : option Parts :=
  match int16 R, int16 S, int16 V with
  | Some r, Some s, Some v =>
      let R := hexZ r in
      let S := hexZ s in
      let V := hexZ v in
      if (len R =? 64 + 2)%Z && (len S =? 64 + 2)%Z && (len V =? 2 + 2)%Z
      then
        Some {| partSignature :=
                  "0x" ++ slice R 2 None ++ slice S 2 None ++ slice V 2 None;
                partR := R;
                partS := S;
                partV := V |}
      else None
  | _, _, _ => None
  end.

(** An [int16] for examples: it is right on every output of [hex], which
    is all the examples use, and stands for nothing else of [int(s, 16)]. *)
Definition parse_hex (s : string) : option Z := Some (HexString.to_Z s).

(** The hex digits of a positive number, most significant first. *)
Definition hexdigits (p : positive) : string := HexString.Raw.of_pos p "".

(** *** Function selectors *)

(** [HexBytes.hex()]: ["0x"] and the bytes in lowercase hex. *)
Definition to_hex (bs : list byte) : string := "0x" ++ hexlify bs.

(** [f"{name}({','.join(parameters)})"]. *)
Definition prototype (name : string) (parameters : list string) : string :=
  name ++ "(" ++ concat "," parameters ++ ")".

(** [GetFunctionSelector].  [keccak_text s] is [Web3.keccak(s.encode())],
    which does not raise. *)
Definition GetFunctionSelector (keccak_text : string -> list byte)
  (FunctionName : string) (FunctionParameters : list string) : string :=
  to_hex (firstn 4 (keccak_text (prototype FunctionName FunctionParameters))).

(** [str(salt)] of a non-negative integer. *)
Definition str (salt : nat) : string :=
  NilZero.string_of_uint (Nat.to_uint salt).

(** One pass of the loop of [CrackSelector]; [count] always equals [salt],
    and the progress line printed every 100000 passes is left out. *)
Definition CrackSelector_body (keccak_text : string -> list byte)
  (function_hash : string) (target_param_types : list string) (salt : nat)
  : step string :=
  let name := "LEVI_" ++ str salt in
  let function_name := prototype name target_param_types in
  if (slice function_hash 0 (Some 10%Z)
      =? slice (to_hex (keccak_text function_name)) 0 (Some 10%Z))%string
  then Done (Ok function_name)
  else Continue.

(** [CrackSelector]: the loop has no time limit, so the outer [option] is
    the fuel only. *)
Definition CrackSelector (keccak_text : string -> list byte)
  (source_function_name : string)
  (source_param_types target_param_types : list string) (fuel : nat)
  : option (option string) :=
  let function_ := prototype source_function_name source_param_types in
  let function_hash := to_hex (keccak_text function_) in
  option_map catch_all
    (while1 (CrackSelector_body keccak_text function_hash target_param_types)
       fuel 0).

End BlockchainUtils.

(** * Properties of the CRT solver *)

Module CRTProofs.
Import Numbertheory.
Local Open Scope Z_scope.

Lemma fold_left_mul (l : list Z) (x : Z) : fold_left Z.mul l x = x * prod l.
Proof.
  revert x; induction l as [|y l IH]; intros x; simpl.
  - lia.
  - rewrite IH. unfold prod. lia.
Qed.

Lemma reduce_mul_cons (x : Z) (l : list Z) :
  reduce_mul (x :: l) = Ok (prod (x :: l)).
Proof. simpl. now rewrite fold_left_mul. Qed.

Lemma prod_app (l1 l2 : list Z) : prod (l1 ++ l2) = prod l1 * prod l2.
Proof.
  induction l1 as [|x l1 IH]; simpl.
  - now destruct (prod l2).
  - rewrite IH. lia.
Qed.

Lemma prod_split (pre rest : list Z) (mi : Z) :
  prod (pre ++ mi :: rest) = prod (pre ++ rest) * mi.
Proof. rewrite !prod_app. simpl. lia. Qed.

Lemma prod_nonzero (l : list Z) : (forall m, In m l -> m <> 0) -> prod l <> 0.
Proof.
  induction l as [|x l IH]; simpl; intros H.
  - lia.
  - apply Z.neq_mul_0. split; [apply H; now left | apply IH; auto].
Qed.

Lemma prod_pos (l : list Z) : (forall m, In m l -> 0 < m) -> 0 < prod l.
Proof.
  induction l as [|x l IH]; simpl; intros H.
  - lia.
  - apply Z.mul_pos_pos; [apply H; now left | apply IH; auto].
Qed.

Lemma In_divide_prod (l : list Z) (m : Z) : In m l -> (m | prod l).
Proof.
  induction l as [|x l IH]; simpl; [tauto|].
  intros [->|H].
  - apply Z.divide_factor_l.
  - apply Z.divide_mul_r; auto.
Qed.

Lemma prod_coprime (l : list Z) (m : Z) :
  (forall x, In x l -> Z.gcd x m = 1) -> Z.gcd (prod l) m = 1.
Proof.
  induction l as [|x l IH]; simpl; intros H.
  - apply Z.gcd_1_l.
  - apply Z.coprime_mul_l; [apply H; now left | apply IH; auto].
Qed.

(** [M // mi] is the product of the other moduli. *)
Lemma floordiv_split (pre rest : list Z) (mi : Z) :
  mi <> 0 ->
  floordiv (prod (pre ++ mi :: rest)) mi = Ok (prod (pre ++ rest)).
Proof.
  intros Hmi. unfold floordiv.
  destruct (Z.eqb_spec mi 0) as [|_]; [contradiction|].
  now rewrite prod_split, Z.div_mul.
Qed.

Lemma others_split (pre rest : list Z) (mi : Z) :
  others (pre ++ mi :: rest) (List.length pre) = prod (pre ++ rest).
Proof.
  unfold others. f_equal. f_equal.
  - rewrite firstn_app, Nat.sub_diag, firstn_all. simpl. apply app_nil_r.
  - rewrite skipn_app.
    replace (S (List.length pre) - List.length pre)%nat with 1%nat by lia.
    rewrite skipn_all2 by lia. reflexivity.
Qed.

(** [moudle.index(mi)] finds the first position of [mi], at or before any
    position that holds it. *)
Lemma index_first (moudle : list Z) (mi : Z) (k : nat) :
  nth_error moudle k = Some mi ->
  exists k', index mi moudle = Some k' /\ (k' <= k)%nat /\
             nth_error moudle k' = Some mi.
Proof.
  revert k; induction moudle as [|x l IH]; intros k H.
  - destruct k; discriminate.
  - simpl. destruct (Z.eqb_spec x mi) as [->|Hne].
    + exists 0%nat. repeat split. lia.
    + destruct k as [|k]; simpl in H; [congruence|].
      destruct (IH k H) as (k' & -> & Hle & Hk').
      exists (S k'). repeat split; [lia | exact Hk'].
Qed.

Lemma nth_error_split (pre rest : list Z) (mi m : Z) (j : nat) :
  nth_error (pre ++ mi :: rest) j = Some m ->
  (j < List.length pre)%nat /\ In m pre \/
  j = List.length pre /\ m = mi \/
  (List.length pre < j)%nat /\ In m rest.
Proof.
  intros H. destruct (Nat.lt_trichotomy j (List.length pre)) as [Hlt|[->|Hgt]].
  - left. split; [exact Hlt|].
    rewrite nth_error_app1 in H by exact Hlt. eapply nth_error_In; eauto.
  - right; left. split; [reflexivity|].
    rewrite nth_error_app2, Nat.sub_diag in H by lia. simpl in H. congruence.
  - right; right. split; [exact Hgt|].
    rewrite nth_error_app2 in H by lia.
    destruct (j - List.length pre)%nat as [|n] eqn:E; [lia|].
    simpl in H. eapply nth_error_In; eauto.
Qed.

Lemma nth_error_middle (pre rest : list Z) (mi : Z) :
  nth_error (pre ++ mi :: rest) (List.length pre) = Some mi.
Proof. rewrite nth_error_app2, Nat.sub_diag by lia. reflexivity. Qed.

Lemma invert_coprime (x m : Z) :
  m <> 0 -> Z.gcd x m = 1 -> invert x m = Ok (Z.invmod x (Z.abs m)).
Proof.
  intros Hm Hg. unfold invert.
  destruct (Z.eqb_spec m 0) as [|_]; [contradiction|].
  now rewrite Hg.
Qed.

Lemma invert_not_coprime (x m : Z) :
  m <> 0 -> Z.gcd x m <> 1 -> invert x m = Raise NoInverseExists.
Proof.
  intros Hm Hg. unfold invert.
  destruct (Z.eqb_spec m 0) as [|_]; [contradiction|].
  destruct (Z.eqb_spec (Z.gcd x m) 1) as [|_]; [contradiction|reflexivity].
Qed.

Lemma pymod_nonzero (x M : Z) : M <> 0 -> pymod x M = Ok (x mod M).
Proof.
  intros HM. unfold pymod.
  destruct (Z.eqb_spec M 0) as [|_]; [contradiction|reflexivity].
Qed.

(** The remainder looked up through [index] is the one at the position of
    the loop: a modulus that occurs twice among pairwise coprime positive
    moduli is [1], and its remainders are all [0]. *)
Lemma getitem_index (moudle a : list Z) (k : nat) (mi ak : Z) :
  List.length moudle = List.length a ->
  pairwise_coprime moudle -> in_range moudle a ->
  (forall m, In m moudle -> 0 < m) ->
  nth_error moudle k = Some mi -> nth_error a k = Some ak ->
  getitem a (index mi moudle) = Ok ak.
Proof.
  intros Hlen Hcop Hrange Hpos Hk Hak.
  destruct (index_first moudle mi k Hk) as (k' & -> & Hle & Hk').
  assert (Hlt : (k' < List.length a)%nat).
  { rewrite <- Hlen. apply nth_error_Some. congruence. }
  apply nth_error_Some in Hlt.
  simpl. destruct (nth_error a k') as [a'|] eqn:Ha'; [|congruence].
  f_equal. destruct (Nat.eq_dec k' k) as [->|Hne]; [congruence|].
  pose proof (Hcop k' k mi mi Hne Hk' Hk) as Hg.
  rewrite Z.gcd_diag in Hg.
  pose proof (Hrange k' mi a' Hk' Ha').
  pose proof (Hrange k mi ak Hk Hak). lia.
Qed.

(** The loop, started at the position after [pre] with a [result] that
    already solves the congruences of [pre] and vanishes modulo the moduli
    still to come, ends with a solution of all of them. *)
Lemma CRT_loop_solves (moudle a : list Z) :
  List.length moudle = List.length a ->
  (forall m, In m moudle -> 0 < m) ->
  pairwise_coprime moudle -> in_range moudle a ->
  forall rest pre result,
    moudle = pre ++ rest ->
    (forall j m r, nth_error moudle j = Some m -> nth_error a j = Some r ->
       result mod m = if (j <? List.length pre)%nat then r else 0) ->
    exists x, CRT_loop (prod moudle) moudle a rest result = Ok x /\
      forall j m r, nth_error moudle j = Some m -> nth_error a j = Some r ->
        x mod m = r.
Proof.
  intros Hlen Hpos Hcop Hrange.
  assert (HM : 0 < prod moudle) by now apply prod_pos.
  induction rest as [|mi rest IH]; intros pre result Hsplit Hinv.
  - exists result. split; [reflexivity|].
    intros j m r Hm Hr. rewrite (Hinv j m r Hm Hr).
    rewrite app_nil_r in Hsplit. subst pre.
    assert (j < List.length moudle)%nat by (apply nth_error_Some; congruence).
    destruct (Nat.ltb_spec j (List.length moudle)); [reflexivity|lia].
  - set (k := List.length pre).
    assert (Hk : nth_error moudle k = Some mi)
      by (rewrite Hsplit; apply nth_error_middle).
    assert (Hmi : 0 < mi) by (apply Hpos; eapply nth_error_In; eauto).
    assert (Hother : forall j m, nth_error moudle j = Some m -> j <> k ->
                                 In m (pre ++ rest)).
    { intros j m Hm Hj. rewrite Hsplit in Hm.
      apply nth_error_split in Hm. apply in_or_app.
      destruct Hm as [[_ ?]|[[? _]|[_ ?]]]; [now left | contradiction | now right]. }
    assert (Hg : Z.gcd (prod (pre ++ rest)) mi = 1).
    { apply prod_coprime. intros x Hx.
      assert (exists j, j <> k /\ nth_error moudle j = Some x) as (j & Hj & Hjx).
      { apply in_app_or in Hx. destruct Hx as [Hx|Hx];
          apply In_nth_error in Hx; destruct Hx as [n Hn].
        - assert (n < k)%nat by (apply nth_error_Some; congruence).
          exists n. split; [lia|]. rewrite Hsplit, nth_error_app1; assumption.
        - exists (k + S n)%nat. split; [lia|].
          rewrite Hsplit, nth_error_app2 by lia.
          replace (k + S n - List.length pre)%nat with (S n) by (unfold k; lia).
          exact Hn. }
      exact (Hcop j k x mi Hj Hjx Hk). }
    assert (exists ak, nth_error a k = Some ak) as [ak Hak].
    { destruct (nth_error a k) eqn:E; [eauto|].
      apply nth_error_None in E.
      assert (k < List.length moudle)%nat by (apply nth_error_Some; congruence).
      lia. }
    cbn [CRT_loop].
    replace (floordiv (prod moudle) mi) with (Ok (prod (pre ++ rest)))
      by (rewrite Hsplit; symmetry; apply floordiv_split; lia).
    cbn [bind]. rewrite invert_coprime by (trivial; lia).
    cbn [bind].
    rewrite (getitem_index moudle a k mi ak) by assumption.
    cbn [bind]. rewrite pymod_nonzero by lia. cbn [bind].
    rewrite Z.abs_eq by lia.
    apply (IH (pre ++ [mi])).
    { rewrite <- app_assoc. exact Hsplit. }
    intros j m r Hm Hr.
    assert (0 < m) by (apply Hpos; eapply nth_error_In; eauto).
    assert (Hdiv : (m | prod moudle))
      by (apply In_divide_prod; eapply nth_error_In; eauto).
    rewrite Z.mod_mod_divide by assumption.
    rewrite length_app. cbn [List.length]. fold k.
    destruct (Nat.eq_dec j k) as [->|Hj].
    + assert (m = mi) by congruence. assert (r = ak) by congruence. subst m r.
      pose proof (Hinv k mi ak Hk Hak) as H0.
      rewrite Nat.ltb_irrefl in H0.
      destruct (Nat.ltb_spec k (k + 1)); [|lia].
      replace (ak * prod (pre ++ rest) * Z.invmod (prod (pre ++ rest)) mi)
        with (ak * (Z.invmod (prod (pre ++ rest)) mi * prod (pre ++ rest)))
        by lia.
      rewrite Zplus_mod, H0, Z.add_0_l, Zmod_mod.
      rewrite Zmult_mod, (Z.invmod_coprime' _ _ Hg), <- Zmult_mod, Z.mul_1_r.
      apply Z.mod_small. exact (Hrange k mi ak Hk Hak).
    + destruct (In_divide_prod _ _ (Hother j m Hm Hj)) as [c Hc].
      rewrite Hc.
      replace (result + ak * (c * m) * Z.invmod (c * m) mi)
        with (result + (ak * c * Z.invmod (c * m) mi) * m) by lia.
      rewrite Z_mod_plus_full, (Hinv j m r Hm Hr).
      unfold k.
      destruct (Nat.ltb_spec j (List.length pre)),
               (Nat.ltb_spec j (List.length pre + 1)); try reflexivity; lia.
Qed.

(** C2: for equal-length lists of pairwise coprime positive moduli and
    remainders in range, [CRT] returns a value whenever there is at least one
    modulus, and every value it returns leaves the remainder [a[i]] modulo
    [moudle[i]] at every position [i]. *)
Theorem CRT_remainders (moudle a : list Z) :
  List.length moudle = List.length a ->
  (forall m, In m moudle -> 0 < m) ->
  pairwise_coprime moudle ->
  in_range moudle a ->
  (moudle <> [] -> exists x, CRT moudle a = Ok x) /\
  (forall x, CRT moudle a = Ok x ->
     forall i m r, nth_error moudle i = Some m -> nth_error a i = Some r ->
       x mod m = r).
Proof.
  intros Hlen Hpos Hcop Hrange.
  destruct moudle as [|m0 l] eqn:E.
  - split; [congruence|]. intros x H. discriminate.
  - rewrite <- E in *.
    assert (HM : 0 < prod moudle) by now apply prod_pos.
    destruct (CRT_loop_solves moudle a Hlen Hpos Hcop Hrange moudle [] 0)
      as (y & Hy & Hsol).
    { reflexivity. }
    { intros j m r _ _. now destruct j. }
    assert (Hrun : CRT moudle a = Ok (y mod prod moudle)).
    { unfold CRT. rewrite E at 1. rewrite reduce_mul_cons, <- E.
      cbn [bind]. rewrite Hy. cbn [bind]. apply pymod_nonzero. lia. }
    split.
    + intros _. eauto.
    + intros x Hx i m r Hm Hr. rewrite Hrun in Hx. injection Hx as <-.
      rewrite Z.mod_mod_divide; [eauto|].
      apply In_divide_prod. eapply nth_error_In; eauto.
Qed.

Lemma CRT_remainders_witness :
  (exists x, CRT [3; 5; 7] [2; 4; 3] = Ok x) /\
  (forall x, CRT [3; 5; 7] [2; 4; 3] = Ok x ->
     forall i m r, nth_error [3; 5; 7] i = Some m ->
       nth_error [2; 4; 3] i = Some r -> x mod m = r).
Proof.
  assert (Hlen : List.length [3; 5; 7] = List.length [2; 4; 3])
    by reflexivity.
  assert (Hpos : forall m, In m [3; 5; 7] -> 0 < m).
  { simpl. intros m [<-|[<-|[<-|[]]]]; reflexivity. }
  assert (Hcop : pairwise_coprime [3; 5; 7]).
  { intros [|[|[|i]]] [|[|[|j]]] mi mj Hij Hi Hj; simpl in Hi, Hj;
      try congruence; try (destruct i; discriminate);
      try (destruct j; discriminate);
      injection Hi as <-; injection Hj as <-; reflexivity. }
  assert (Hrange : in_range [3; 5; 7] [2; 4; 3]).
  { intros [|[|[|i]]] m r Hm Hr; simpl in Hm, Hr;
      try (destruct i; discriminate);
      injection Hm as <-; injection Hr as <-; lia. }
  destruct (CRT_remainders [3; 5; 7] [2; 4; 3] Hlen Hpos Hcop Hrange)
    as [Hret Hsol].
  split; [apply Hret; discriminate | exact Hsol].
Defined.

(** The loop stops at the first modulus that shares a factor with the
    product of the others. *)
Lemma CRT_loop_fails (moudle a : list Z) :
  (forall m, In m moudle -> m <> 0) ->
  (List.length moudle <= List.length a)%nat ->
  forall rest pre result,
    moudle = pre ++ rest ->
    (exists j mj, nth_error rest j = Some mj /\
       Z.gcd (others moudle (List.length pre + j)) mj <> 1) ->
    CRT_loop (prod moudle) moudle a rest result = Raise NoInverseExists.
Proof.
  intros Hnz Hlen.
  assert (HM : prod moudle <> 0) by now apply prod_nonzero.
  induction rest as [|mi rest IH]; intros pre result Hsplit (j & mj & Hj & Hbad).
  - destruct j; discriminate.
  - assert (Hk : nth_error moudle (List.length pre) = Some mi)
      by (rewrite Hsplit; apply nth_error_middle).
    assert (Hmi : mi <> 0) by (apply Hnz; eapply nth_error_In; eauto).
    cbn [CRT_loop].
    replace (floordiv (prod moudle) mi) with (Ok (prod (pre ++ rest)))
      by (rewrite Hsplit; symmetry; apply floordiv_split; exact Hmi).
    cbn [bind].
    destruct (Z.eq_dec (Z.gcd (prod (pre ++ rest)) mi) 1) as [Hg|Hg].
    + rewrite invert_coprime by assumption. cbn [bind].
      destruct (index_first moudle mi _ Hk) as (k' & -> & Hle & Hk').
      assert (Hlt : (k' < List.length a)%nat).
      { assert (List.length pre < List.length moudle)%nat
          by (apply nth_error_Some; congruence). lia. }
      apply nth_error_Some in Hlt. cbn [getitem].
      destruct (nth_error a k') as [ak|]; [|congruence].
      cbn [bind]. rewrite pymod_nonzero by assumption. cbn [bind].
      apply (IH (pre ++ [mi])).
      { rewrite <- app_assoc. exact Hsplit. }
      destruct j as [|j].
      * exfalso. apply Hbad. simpl in Hj. injection Hj as <-.
        rewrite Nat.add_0_r, Hsplit, others_split. exact Hg.
      * exists j, mj. split; [exact Hj|].
        rewrite length_app. cbn [List.length].
        replace (List.length pre + 1 + j)%nat
          with (List.length pre + S j)%nat by lia.
        exact Hbad.
    + now rewrite invert_not_coprime.
Qed.

(** C8: on non-zero moduli with a remainder for each, if some modulus is
    not coprime to the product of the others, [CRT] returns no number: the
    modular inverse fails with [NoInverseExists]. *)
Theorem CRT_not_coprime (moudle a : list Z) (i : nat) (mi : Z) :
  (forall m, In m moudle -> m <> 0) ->
  (List.length moudle <= List.length a)%nat ->
  nth_error moudle i = Some mi ->
  Z.gcd (others moudle i) mi <> 1 ->
  CRT moudle a = Raise NoInverseExists.
Proof.
  intros Hnz Hlen Hi Hbad.
  destruct moudle as [|m0 l] eqn:E; [destruct i; discriminate|].
  rewrite <- E in *. unfold CRT.
  rewrite E at 1. rewrite reduce_mul_cons, <- E. cbn [bind].
  rewrite (CRT_loop_fails moudle a Hnz Hlen moudle [] 0); [reflexivity .. |].
  exists i, mi. split; assumption.
Qed.

Lemma CRT_not_coprime_witness : CRT [4; 6] [1; 1] = Raise NoInverseExists.
Proof.
  apply (CRT_not_coprime [4; 6] [1; 1] 0 4).
  - simpl. intros m [<-|[<-|[]]]; discriminate.
  - simpl. lia.
  - reflexivity.
  - vm_compute. discriminate.
Defined.

(** C10: [CRT([3, 5, 7], [2, 4, 3])] is [59]. *)
Theorem CRT_known_vector : CRT [3; 5; 7] [2; 4; 3] = Ok 59.
Proof. vm_compute. reflexivity. Qed.

End CRTProofs.

(** * Properties of the address miners *)

Module MinerProofs.
Import BlockchainUtils.
Local Open Scope string_scope.

(** ** Strings, slices and containment *)

Lemma length_append (s t : string) :
  String.length (s ++ t) = String.length s + String.length t.
Proof. induction s as [|c s IH]; simpl; congruence. Qed.

Lemma append_nil_r (s : string) : s ++ "" = s.
Proof. induction s as [|c s IH]; simpl; congruence. Qed.

Lemma length_zero (s : string) : String.length s = 0 -> s = "".
Proof. destruct s; simpl; [reflexivity|discriminate]. Qed.

Lemma substring_zero (n : nat) (s : string) : substring n 0 s = "".
Proof.
  revert s; induction n as [|n IH]; intros [|c s]; simpl; auto.
Qed.

Lemma substring_length (n m : nat) (s : string) :
  String.length (substring n m s) = Nat.min m (String.length s - n).
Proof.
  revert m s; induction n as [|n IH]; intros m s.
  - rewrite Nat.sub_0_r. revert s; induction m as [|m IHm]; intros [|c s];
      simpl; auto.
  - destruct s as [|c s]; simpl; [lia|apply IH].
Qed.

Lemma substring_all (s : string) : substring 0 (String.length s) s = s.
Proof. induction s as [|c s IH]; simpl; congruence. Qed.

Lemma get_substring (n m k : nat) (s : string) (x : ascii) :
  get k (substring n m s) = Some x -> get (n + k) s = Some x.
Proof.
  revert m k s; induction n as [|n IH]; intros m k s.
  - simpl. revert k s; induction m as [|m IHm]; intros k [|c s]; simpl;
      try discriminate.
    destruct k; [auto|apply IHm].
  - destruct s as [|c s]; simpl; [discriminate|apply IH].
Qed.

Lemma prefix_length (a b : string) :
  prefix a b = true -> String.length a <= String.length b.
Proof.
  revert b; induction a as [|c a IH]; intros [|d b]; simpl; try lia;
    try discriminate.
  destruct (ascii_dec c d); [|discriminate].
  intros H. apply IH in H. lia.
Qed.

Lemma prefix_refl (a : string) : prefix a a = true.
Proof.
  induction a as [|c a IH]; simpl; [reflexivity|].
  destruct (ascii_dec c c); [exact IH|congruence].
Qed.

Lemma prefix_whole (a b : string) :
  prefix a b = true -> String.length b <= String.length a -> b = a.
Proof.
  revert b; induction a as [|c a IH]; intros [|d b]; simpl; try lia;
    try discriminate; auto.
  destruct (ascii_dec c d) as [->|]; [|discriminate].
  intros H Hlen. f_equal. apply IH; [exact H|lia].
Qed.

Lemma contains_eq (c s : string) :
  contains c s =
  prefix c s || match s with
                | "" => false
                | String _ s' => contains c s'
                end.
Proof. destruct s; reflexivity. Qed.

Lemma contains_length (c s : string) :
  contains c s = true -> String.length c <= String.length s.
Proof.
  induction s as [|x s IH]; rewrite contains_eq, orb_true_iff.
  - intros [H|H]; [|discriminate]. now apply prefix_length in H.
  - intros [H|H]; [now apply prefix_length in H|]. apply IH in H.
    simpl. lia.
Qed.

Lemma contains_refl (c : string) : contains c c = true.
Proof. now rewrite contains_eq, prefix_refl. Qed.

(** [content in window] on a window no longer than [content] is equality. *)
Lemma contains_window (c s : string) :
  String.length s <= String.length c ->
  contains c s = true <-> s = c.
Proof.
  intros Hlen. split.
  - rewrite contains_eq, orb_true_iff.
    intros [H|H]; [apply prefix_whole; assumption|].
    destruct s as [|x s]; [discriminate|].
    apply contains_length in H. simpl in Hlen. lia.
  - intros ->. apply contains_refl.
Qed.

Lemma len_nonneg (s : string) : (0 <= len s)%Z.
Proof. unfold len. lia. Qed.

(** The window [address[position : position + len(content)]] is never
    longer than [content]. *)
Lemma window_length (address content : string) (position : Z) :
  String.length
    (slice address position (Some (position + len content)%Z))
  <= String.length content.
Proof.
  unfold slice, bound, len. rewrite substring_length.
  destruct (position <? 0)%Z eqn:E1,
    (position + Z.of_nat (String.length content) <? 0)%Z eqn:E2; lia.
Qed.

Lemma window_iff (address content : string) (position : Z) :
  contains content
    (slice address position (Some (position + len content)%Z)) = true
  <-> slice address position (Some (position + len content)%Z) = content.
Proof. apply contains_window, window_length. Qed.

(** A window at a non-negative position matches exactly when [content]
    occupies the address from that offset. *)
Lemma window_empty (address : string) (position : Z) :
  slice address position (Some (position + len "")%Z) = "".
Proof.
  unfold slice, len. simpl String.length. simpl Z.of_nat.
  rewrite Z.add_0_r, Z.sub_diag. apply substring_zero.
Qed.

Lemma window_forward (address content : string) (position : Z) :
  (0 <= position)%Z ->
  slice address position (Some (position + len content)%Z) = content
  <-> occupies content (Z.to_nat position) address.
Proof.
  intros Hp. destruct (string_dec content "") as [->|Hne].
  - rewrite window_empty. unfold occupies. simpl String.length.
    rewrite substring_zero. tauto.
  - assert (Hl : String.length content <> 0)
      by (intros H; apply Hne, length_zero, H).
    unfold occupies, slice, bound, len.
    destruct (Z.ltb_spec position 0) as [Hneg|_]; [lia|].
    destruct (Z.ltb_spec (position + Z.of_nat (String.length content)) 0)
      as [Hneg|_]; [lia|].
    set (n := String.length address) in *.
    set (l := String.length content) in *.
    destruct (Z_le_gt_dec (position + Z.of_nat l) (Z.of_nat n)) as [Hfit|Hout].
    + rewrite !Z.min_l by lia.
      replace (Z.to_nat (position + Z.of_nat l - position)) with l by lia.
      tauto.
    + split; intros H; apply (f_equal String.length) in H;
        rewrite substring_length in H; fold n l in H; lia.
Qed.

(** A window at a negative position matches exactly when it ends before the
    end of the address, starts inside it, and [content] occupies the address
    from that offset counted from the end; an empty [content] always
    matches. *)
Lemma window_backward (address content : string) (position : Z) :
  (position < 0)%Z ->
  slice address position (Some (position + len content)%Z) = content
  <-> content = "" \/
      ((position + len content < 0)%Z /\ (- len address <= position)%Z /\
       occupies content (Z.to_nat (len address + position)) address).
Proof.
  intros Hp. destruct (string_dec content "") as [->|Hne].
  - rewrite window_empty. tauto.
  - assert (Hl : String.length content <> 0)
      by (intros H; apply Hne, length_zero, H).
    unfold occupies, slice, bound, len.
    destruct (Z.ltb_spec position 0) as [_|Hpos]; [|lia].
    set (n := String.length address) in *.
    set (l := String.length content) in *.
    destruct (Z.ltb_spec (position + Z.of_nat l) 0) as [Hend|Hend].
    + destruct (Z_le_gt_dec (- Z.of_nat n) position) as [Hin|Hout].
      * rewrite !Z.max_r by lia.
        replace (Z.to_nat (_ - _)) with l by lia.
        split; [intros H; right; repeat split; (lia || exact H)|].
        intros [?|(_ & _ & H)]; [contradiction|exact H].
      * split.
        -- intros H. apply (f_equal String.length) in H.
           rewrite substring_length in H. fold n l in H. lia.
        -- intros [?|(_ & ? & _)]; [contradiction|lia].
    + split.
      * intros H. apply (f_equal String.length) in H.
        rewrite substring_length in H. fold n l in H. lia.
      * intros [?|(? & _)]; [contradiction|lia].
Qed.

(** ** The test of the single-constraint miner *)

Lemma satisfies_window (content : string) (position : Z) (address : string) :
  position <> (-4)%Z ->
  satisfies content position address =
  contains content
    (slice address position (Some (position + len content)%Z)).
Proof.
  intros Hp. unfold satisfies. rewrite Z.gtb_ltb.
  destruct (Z.eqb_spec position 0), (Z.ltb_spec 0 position),
    (Z.ltb_spec position 0), (Z.eqb_spec position (-4));
    try lia; simpl;
    destruct (contains content _); reflexivity.
Qed.

Lemma satisfies_sentinel (content address : string) :
  satisfies content (-4) address = contains content (slice address (-4) None).
Proof.
  unfold satisfies. simpl.
  destruct (contains content _); reflexivity.
Qed.

Lemma slice_sentinel (address : string) :
  String.length address = 40 ->
  slice address (-4) None = substring 36 4 address.
Proof. intros H. unfold slice, bound, len. rewrite H. reflexivity. Qed.

(** On a 40-character address the test of the code is the position
    semantics, except at the unmatchable positions, where it fails. *)
Lemma satisfies_iff (content : string) (position : Z) (address : string) :
  String.length address = 40 ->
  satisfies content position address = true <->
  appears_at content position address /\ ~ unmatchable content position.
Proof.
  intros Hlen. unfold appears_at, unmatchable.
  destruct (Z.eqb_spec position (-4)) as [->|Hp].
  - rewrite satisfies_sentinel, slice_sentinel, Hlen by exact Hlen.
    simpl. intuition lia.
  - rewrite satisfies_window, window_iff by exact Hp.
    destruct (Z.ltb_spec position 0) as [Hneg|Hpos].
    + rewrite window_backward by exact Hneg.
      assert (Hl : len address = 40%Z) by (unfold len; lia).
      rewrite Hl. split.
      * intros [->|(H1 & H2 & H3)].
        -- split; [|tauto]. unfold occupies. simpl.
           apply substring_zero.
        -- split; [exact H3|]. intros (_ & _ & _ & [?|?]); lia.
      * intros (H1 & H2).
        destruct (string_dec content "") as [->|Hc]; [now left|].
        right. repeat split; [| |exact H1].
        -- destruct (Z_lt_ge_dec (position + len content) 0); [assumption|].
           exfalso. apply H2. repeat split; auto. left. lia.
        -- destruct (Z_le_gt_dec (-40) position); [assumption|].
           exfalso. apply H2. repeat split; auto. right. lia.
    + rewrite window_forward by exact Hpos.
      split; [intros H; split; [exact H|]; intros (? & _); lia|tauto].
Qed.

Lemma unmatchable_fails (content : string) (position : Z) (address : string) :
  String.length address = 40 -> unmatchable content position ->
  satisfies content position address = false.
Proof.
  intros Hlen Hun.
  destruct (satisfies content position address) eqn:E; [|reflexivity].
  apply satisfies_iff in E; [tauto|exact Hlen].
Qed.

(** ** Salts and addresses *)

Lemma hexlify_cons (b : byte) (bs : list byte) :
  hexlify (b :: bs) = fmt_02x b ++ hexlify bs.
Proof.
  unfold hexlify. simpl map. destruct bs as [|b' bs].
  - simpl concat. now rewrite append_nil_r.
  - reflexivity.
Qed.

Lemma hexlify_length (bs : list byte) :
  String.length (hexlify bs) = 2 * List.length bs.
Proof.
  induction bs as [|b bs IH]; [reflexivity|].
  rewrite hexlify_cons, length_append, IH. simpl. lia.
Qed.

Lemma all_lower_hex_append (s t : string) :
  all_lower_hex (s ++ t) = all_lower_hex s && all_lower_hex t.
Proof.
  induction s as [|c s IH]; simpl; [reflexivity|].
  now rewrite IH, andb_assoc.
Qed.

Lemma fmt_02x_lower (b : byte) : all_lower_hex (fmt_02x b) = true.
Proof. destruct b; vm_compute; reflexivity. Qed.

Lemma hexlify_lower (bs : list byte) : all_lower_hex (hexlify bs) = true.
Proof.
  induction bs as [|b bs IH]; [reflexivity|].
  now rewrite hexlify_cons, all_lower_hex_append, fmt_02x_lower, IH.
Qed.

(** [s[k:]] drops the first [k] characters. *)
Lemma slice_from (s : string) (k : nat) :
  slice s (Z.of_nat k) None = substring k (String.length s - k) s.
Proof.
  unfold slice, bound, len.
  destruct (Z.ltb_spec (Z.of_nat k) 0) as [Hneg|_]; [lia|].
  destruct (le_gt_dec k (String.length s)) as [Hle|Hgt].
  - rewrite Z.min_l by lia. f_equal; lia.
  - rewrite Z.min_r by lia.
    replace (Z.to_nat (_ - _)) with 0 by lia.
    replace (String.length s - k) with 0 by lia.
    now rewrite !substring_zero.
Qed.

Lemma hexlify_drop (m : nat) (bs : list byte) :
  substring (2 * m) (String.length (hexlify bs) - 2 * m) (hexlify bs) =
  hexlify (skipn m bs).
Proof.
  revert bs; induction m as [|m IH]; intros bs.
  - simpl. rewrite Nat.sub_0_r. apply substring_all.
  - destruct bs as [|b bs]; [reflexivity|].
    rewrite hexlify_cons. replace (2 * S m) with (S (S (2 * m))) by lia.
    simpl. apply IH.
Qed.

(** The address string is the hex rendering of the digest without its
    first 12 bytes. *)
Lemma address_low20 (hashed : list byte) :
  slice (concat "" (map fmt_02x hashed)) 24 None = hexlify (skipn 12 hashed).
Proof.
  fold (hexlify hashed).
  change 24%Z with (Z.of_nat (2 * 12)).
  rewrite slice_from. apply hexlify_drop.
Qed.

Lemma candidate_hashed (w : World) (D B : string) (i : nat) (a : string) :
  candidate w D B i = Ok a <->
  exists hashed,
    keccak w ("0xff" ++ D ++ salt_of i ++ B) = Some hashed /\
    a = hexlify (skipn 12 hashed).
Proof.
  unfold candidate, address_of.
  destruct (keccak w _) as [hashed|].
  - rewrite address_low20. split.
    + intros H. injection H as <-. eauto.
    + intros (h & Hh & ->). injection Hh as <-. reflexivity.
  - split; [discriminate|]. intros (h & Hh & _). discriminate.
Qed.

Lemma candidate_length (w : World) (D B : string) (i : nat) (a : string) :
  digest32 w -> candidate w D B i = Ok a -> String.length a = 40.
Proof.
  intros Hw H. apply candidate_hashed in H. destruct H as (h & Hh & ->).
  rewrite hexlify_length, length_skipn, (Hw _ _ Hh). reflexivity.
Qed.

Lemma replicate_length (n : nat) (c : ascii) :
  String.length (replicate n c) = n.
Proof. induction n as [|n IH]; simpl; congruence. Qed.

Lemma rjust_length (width : nat) (fill : ascii) (s : string) :
  String.length (rjust width fill s) = Nat.max width (String.length s).
Proof. unfold rjust. rewrite length_append, replicate_length. lia. Qed.

(** [hex(i)[2:]]: the digits without the ["0x"]. *)
Lemma hex_digits (n : N) :
  slice (hex n) 2 None =
  match n with
  | N0 => "0"
  | Npos p => HexString.Raw.of_pos p ""
  end.
Proof.
  change 2%Z with (Z.of_nat 2). rewrite slice_from.
  destruct n as [|p]; [reflexivity|].
  unfold hex, HexString.of_N, HexString.of_pos.
  cbn [String.length substring Nat.sub]. rewrite Nat.sub_0_r.
  apply substring_all.
Qed.

Lemma of_pos_length (k : nat) :
  forall (p : positive) (rest : string),
    Pos.size_nat p <= 4 * k ->
    String.length (HexString.Raw.of_pos p rest) <= k + String.length rest.
Proof.
  induction k as [|k IH]; intros p rest Hp.
  - destruct p; simpl in Hp; lia.
  - do 4 try destruct p as [p|p|]; cbn [HexString.Raw.of_pos String.length];
      try lia;
      (etransitivity; [apply IH; simpl in Hp; lia|simpl; lia]).
Qed.

Lemma size_nat_bound (p : positive) :
  forall k : nat, (Npos p < 2 ^ N.of_nat k)%N -> Pos.size_nat p <= k.
Proof.
  induction p as [p IH|p IH|]; intros [|k] H; simpl Pos.size_nat;
    try (simpl in H; lia).
  - apply le_n_S, IH. rewrite Nat2N.inj_succ, N.pow_succ_r' in H. lia.
  - apply le_n_S, IH. rewrite Nat2N.inj_succ, N.pow_succ_r' in H. lia.
Qed.

(** A counter below [2^256] gives a salt of exactly 64 characters. *)
Lemma salt_length (i : nat) :
  (N.of_nat i < 2 ^ 256)%N -> String.length (salt_of i) = 64.
Proof.
  intros Hi. unfold salt_of. rewrite rjust_length, hex_digits.
  destruct (N.of_nat i) as [|p]; [reflexivity|].
  pose proof (of_pos_length 64 p "" (size_nat_bound p 256 Hi)) as H.
  simpl String.length in H. lia.
Qed.

(** ** The search loop *)

Section Loop.
Context {A : Type} (body : nat -> step A).

Lemma while1_Some (fuel i : nat) (r : res A) :
  while1 body fuel i = Some r <->
  exists k, k < fuel /\ body (i + k) = Done r /\
            forall j, j < k -> body (i + j) = Continue.
Proof.
  revert i; induction fuel as [|fuel IH]; intros i; simpl.
  - split; [discriminate|]. intros (k & Hk & _). lia.
  - destruct (body i) as [|r'] eqn:E.
    + rewrite IH. split.
      * intros (k & Hk & Hd & Hc). exists (S k). repeat split; [lia| |].
        -- rewrite <- Nat.add_succ_comm. exact Hd.
        -- intros [|j] Hj; [now rewrite Nat.add_0_r|].
           rewrite <- Nat.add_succ_comm. apply Hc. lia.
      * intros ([|k] & Hk & Hd & Hc).
        -- rewrite Nat.add_0_r in Hd. congruence.
        -- exists k. repeat split; [lia| |].
           ++ rewrite Nat.add_succ_comm. exact Hd.
           ++ intros j Hj. rewrite Nat.add_succ_comm. apply Hc. lia.
    + split.
      * intros H. injection H as <-. exists 0. rewrite Nat.add_0_r.
        repeat split; [lia|exact E|]. intros j Hj. lia.
      * intros ([|k] & Hk & Hd & Hc).
        -- rewrite Nat.add_0_r in Hd. congruence.
        -- specialize (Hc 0 ltac:(lia)). rewrite Nat.add_0_r in Hc.
           congruence.
Qed.

(** A result, once reached, is the result for every larger fuel. *)
Lemma while1_more (fuel fuel' i : nat) (r : res A) :
  fuel <= fuel' -> while1 body fuel i = Some r -> while1 body fuel' i = Some r.
Proof.
  intros Hle H. apply while1_Some in H. destruct H as (k & Hk & Hd & Hc).
  apply while1_Some. exists k. repeat split; [lia|exact Hd|exact Hc].
Qed.

Lemma while1_deterministic (fuel fuel' i : nat) (r r' : res A) :
  while1 body fuel i = Some r -> while1 body fuel' i = Some r' -> r = r'.
Proof.
  intros H H'.
  apply (while1_more fuel (Nat.max fuel fuel')) in H; [|lia].
  apply (while1_more fuel' (Nat.max fuel fuel')) in H'; [|lia].
  congruence.
Qed.

(** If the body stops with [r] at [n], and before [n] it either continues
    or stops with [r] as well, the loop ends with [r]. *)
Lemma while1_reaches (r : res A) (n : nat) :
  forall i,
    body (i + n) = Done r ->
    (forall j, j < n -> body (i + j) = Continue \/ body (i + j) = Done r) ->
    while1 body (S n) i = Some r.
Proof.
  induction n as [|n IH]; intros i Hd Hc.
  - simpl. rewrite Nat.add_0_r in Hd. now rewrite Hd.
  - cbn [while1]. destruct (Hc 0 ltac:(lia)) as [H|H];
      rewrite Nat.add_0_r in H; rewrite H; [|reflexivity].
    apply IH.
    + rewrite Nat.add_succ_comm. exact Hd.
    + intros j Hj. rewrite Nat.add_succ_comm. apply Hc. lia.
Qed.

End Loop.

(** ** One search, for any test on the address *)

Section Search.
Variables (w : World) (D B : string) (ok : string -> bool).

Lemma iteration_returns (i : nat) (s ad : string) :
  iteration w D B ok i = Done (Ok (s, ad)) <->
  timed_out w i = false /\
  exists a, candidate w D B i = Ok a /\ ok a = true /\
            s = "0x" ++ salt_of i /\ ad = "0x" ++ a.
Proof.
  unfold iteration, candidate.
  destruct (timed_out w i).
  - split; [discriminate|]. intros [H _]. discriminate.
  - destruct (address_of w D B (salt_of i)) as [a|e].
    + destruct (ok a) eqn:E.
      * split.
        -- intros H. injection H as <- <-. split; [reflexivity|]. eauto.
        -- intros (_ & a' & Ha & _ & -> & ->). injection Ha as <-.
           reflexivity.
      * split; [discriminate|].
        intros (_ & a' & Ha & Hok & _). injection Ha as <-. congruence.
    + split; [discriminate|]. intros (_ & a' & Ha & _). discriminate.
Qed.

Lemma iteration_continues (i : nat) :
  iteration w D B ok i = Continue <->
  timed_out w i = false /\
  exists a, candidate w D B i = Ok a /\ ok a = false.
Proof.
  unfold iteration, candidate.
  destruct (timed_out w i).
  - split; [discriminate|]. intros [H _]. discriminate.
  - destruct (address_of w D B (salt_of i)) as [a|e].
    + destruct (ok a) eqn:E.
      * split; [discriminate|].
        intros (_ & a' & Ha & Hok). injection Ha as <-. congruence.
      * split; [eauto|reflexivity].
    + split; [discriminate|]. intros (_ & a' & Ha & _). discriminate.
Qed.

Lemma iteration_timed_out (i : nat) :
  timed_out w i = true -> iteration w D B ok i = Done (Raise TimeOut).
Proof. intros H. unfold iteration. now rewrite H. Qed.

(** The loop returns a pair exactly for the first counter value whose
    address passes the test, provided no clock reading up to it has reached
    the budget. *)
Lemma search_returns (fuel : nat) (s ad : string) :
  while1 (iteration w D B ok) fuel 0 = Some (Ok (s, ad)) <->
  exists i a, i < fuel /\ s = "0x" ++ salt_of i /\ ad = "0x" ++ a /\
    candidate w D B i = Ok a /\ ok a = true /\
    (forall j, j <= i -> timed_out w j = false) /\
    (forall j, j < i ->
       exists aj, candidate w D B j = Ok aj /\ ok aj = false).
Proof.
  rewrite while1_Some. simpl. split.
  - intros (i & Hi & Hd & Hc).
    apply iteration_returns in Hd.
    destruct Hd as (Ht & a & Ha & Hok & -> & ->).
    exists i, a. repeat split; auto.
    + intros j Hj. destruct (Nat.eq_dec j i) as [->|Hne]; [exact Ht|].
      apply (iteration_continues j), Hc. lia.
    + intros j Hj. apply (iteration_continues j), Hc. exact Hj.
  - intros (i & a & Hi & -> & -> & Ha & Hok & Ht & Hprev).
    exists i. repeat split; [exact Hi| |].
    + apply iteration_returns. split; [apply Ht; lia|]. eauto.
    + intros j Hj. apply iteration_continues.
      split; [apply Ht; lia|apply Hprev; exact Hj].
Qed.

(** When the clock reaches the budget at [k] and no earlier address passes
    the test, the loop raises the time-out exception. *)
Lemma search_times_out (k : nat) :
  timed_out w k = true ->
  (forall j, j < k ->
     exists aj, candidate w D B j = Ok aj /\ ok aj = false) ->
  while1 (iteration w D B ok) (S k) 0 = Some (Raise TimeOut).
Proof.
  intros Hk Hprev. apply while1_reaches; simpl.
  - apply iteration_timed_out, Hk.
  - intros j Hj. destruct (timed_out w j) eqn:E.
    + right. apply iteration_timed_out, E.
    + left. apply iteration_continues. split; [exact E|apply Hprev, Hj].
Qed.

(** A test that fails on every derived address never lets the loop
    return. *)
Lemma search_never_returns :
  (forall i a, candidate w D B i = Ok a -> ok a = false) ->
  forall fuel p, while1 (iteration w D B ok) fuel 0 <> Some (Ok p).
Proof.
  intros Hno fuel [s ad] H. apply search_returns in H.
  destruct H as (i & a & _ & _ & _ & Ha & Hok & _).
  rewrite (Hno i a Ha) in Hok. discriminate.
Qed.

End Search.

Lemma catch_all_pair {A : Type} (x : option (res A)) (p : A) :
  option_map catch_all x = Some (Some p) <-> x = Some (Ok p).
Proof.
  destruct x as [[a|e]|]; simpl; split; intros H; try discriminate;
    injection H as <-; reflexivity.
Qed.


(** ** The single-constraint miner *)

(** C1: a pair returned by [GetSpecialAddressByCreate2] is made of the
    counter value [i] written as hex and left-padded with zeros to 64
    characters, and of the 40 lowercase hex characters of the digest of
    [0xff ++ DeployAddress ++ salt ++ BytecodeHash] without its first 12
    bytes; the content appears in that address at the requested position. *)
Theorem create2_address_correct (w : World) (D B content : string)
  (position : Z) (fuel : nat) (salt address : string) :
  digest32 w ->
  GetSpecialAddressByCreate2 w D B content position fuel
    = Some (Some (salt, address)) ->
  exists i hashed,
    salt = "0x" ++ rjust 64 "0" (slice (hex (N.of_nat i)) 2 None) /\
    ((N.of_nat i < 2 ^ 256)%N ->
       String.length (rjust 64 "0" (slice (hex (N.of_nat i)) 2 None)) = 64) /\
    keccak w ("0xff" ++ D ++ salt_of i ++ B) = Some hashed /\
    address = "0x" ++ hexlify (skipn 12 hashed) /\
    String.length (hexlify (skipn 12 hashed)) = 40 /\
    all_lower_hex (hexlify (skipn 12 hashed)) = true /\
    appears_at content position (hexlify (skipn 12 hashed)).
Proof.
  intros Hw H. apply catch_all_pair, search_returns in H.
  destruct H as (i & a & _ & -> & -> & Ha & Hok & _).
  pose proof (candidate_length w D B i a Hw Ha) as Hlen.
  apply candidate_hashed in Ha. destruct Ha as (hashed & Hh & ->).
  exists i, hashed. repeat split; auto.
  - apply salt_length.
  - apply hexlify_lower.
  - apply satisfies_iff in Hok; [tauto|exact Hlen].
Qed.

Lemma create2_address_correct_witness :
  exists i hashed,
    "0x0000000000000000000000000000000000000000000000000000000000000000"
      = "0x" ++ rjust 64 "0" (slice (hex (N.of_nat i)) 2 None) /\
    ((N.of_nat i < 2 ^ 256)%N ->
       String.length (rjust 64 "0" (slice (hex (N.of_nat i)) 2 None)) = 64) /\
    keccak vanity ("0xff" ++ "" ++ salt_of i ++ "") = Some hashed /\
    "0x00000000000000000000000000000000000000ab"
      = "0x" ++ hexlify (skipn 12 hashed) /\
    String.length (hexlify (skipn 12 hashed)) = 40 /\
    all_lower_hex (hexlify (skipn 12 hashed)) = true /\
    appears_at "ab" 38 (hexlify (skipn 12 hashed)).
Proof.
  apply (create2_address_correct vanity "" "" "ab" 38 1).
  - intros s hashed H. injection H as <-. reflexivity.
  - vm_compute. reflexivity.
Defined.

(** C3: the counter starts at [0] and goes up by one, and the pair returned
    belongs to the first counter value whose address meets the constraint:
    every smaller counter value gives an address in which the content does
    not appear at the position. *)
Theorem first_match_wins (w : World) (D B content : string)
  (position : Z) (fuel : nat) (salt address : string) :
  digest32 w ->
  GetSpecialAddressByCreate2 w D B content position fuel
    = Some (Some (salt, address)) ->
  exists i a,
    salt = "0x" ++ salt_of i /\ address = "0x" ++ a /\
    candidate w D B i = Ok a /\ appears_at content position a /\
    forall j, j < i ->
      exists aj, candidate w D B j = Ok aj /\
                 ~ appears_at content position aj.
Proof.
  intros Hw H. apply catch_all_pair, search_returns in H.
  destruct H as (i & a & _ & -> & -> & Ha & Hok & _ & Hprev).
  apply satisfies_iff in Hok; [|exact (candidate_length w D B i a Hw Ha)].
  destruct Hok as [Happ Hreach].
  exists i, a. repeat split; auto.
  intros j Hj. destruct (Hprev j Hj) as (aj & Haj & Hno).
  exists aj. split; [exact Haj|]. intros Happj.
  assert (satisfies content position aj = true); [|congruence].
  apply satisfies_iff; [exact (candidate_length w D B j aj Hw Haj)|].
  split; assumption.
Qed.

Lemma first_match_wins_witness :
  exists i a,
    "0x0000000000000000000000000000000000000000000000000000000000000003"
      = "0x" ++ salt_of i /\
    "0x0000000000000000000000000000000000000033" = "0x" ++ a /\
    candidate counting "" "" i = Ok a /\ appears_at "33" 38 a /\
    forall j, j < i ->
      exists aj, candidate counting "" "" j = Ok aj /\
                 ~ appears_at "33" 38 aj.
Proof.
  apply (first_match_wins counting "" "" "33" 38 4).
  - intros s hashed H. injection H as <-. reflexivity.
  - vm_compute. reflexivity.
Defined.



(** At an unmatchable position the miner returns no pair, whatever the
    addresses are. *)
Lemma unmatchable_never_returns (w : World) (D B content : string)
  (position : Z) :
  digest32 w -> unmatchable content position ->
  forall fuel pair,
    GetSpecialAddressByCreate2 w D B content position fuel
      <> Some (Some pair).
Proof.
  intros Hw Hun fuel pair H. apply catch_all_pair in H. revert H.
  apply search_never_returns. intros i a Ha.
  apply unmatchable_fails; [exact (candidate_length w D B i a Hw Ha)|].
  exact Hun.
Qed.

(** C5, at the input of the docstring: with [content = "ab"] and
    [position = -2] the first address ends in ["ab"], yet the search runs
    into the time-out and returns [None]. *)
Theorem suffix_position_never_found :
  candidate vanity "" "" 0 = Ok "00000000000000000000000000000000000000ab" /\
  appears_at "ab" (-2) "00000000000000000000000000000000000000ab" /\
  satisfies "ab" (-2) "00000000000000000000000000000000000000ab" = false /\
  GetSpecialAddressByCreate2_try vanity "" "" "ab" (-2) 10
    = Some (Raise TimeOut) /\
  GetSpecialAddressByCreate2 vanity "" "" "ab" (-2) 10 = Some None.
Proof. repeat split; vm_compute; reflexivity. Qed.

(** C6: with the sentinel position [-4] a pair is returned exactly for the
    first counter value whose address holds the content somewhere in its
    last four characters (offsets 36 to 39), reached before the clock runs
    out. *)
Theorem sentinel_tail (w : World) (D B content : string) (fuel : nat)
  (salt address : string) :
  digest32 w ->
  GetSpecialAddressByCreate2 w D B content (-4) fuel
    = Some (Some (salt, address)) <->
  exists i a, i < fuel /\ salt = "0x" ++ salt_of i /\ address = "0x" ++ a /\
    candidate w D B i = Ok a /\
    contains content (substring 36 4 a) = true /\
    (forall j, j <= i -> timed_out w j = false) /\
    (forall j, j < i ->
       exists aj, candidate w D B j = Ok aj /\
                  contains content (substring 36 4 aj) = false).
Proof.
  intros Hw.
  assert (Htest : forall i a, candidate w D B i = Ok a ->
            satisfies content (-4) a = contains content (substring 36 4 a)).
  { intros i a Ha. rewrite satisfies_sentinel, slice_sentinel; [reflexivity|].
    exact (candidate_length w D B i a Hw Ha). }
  unfold GetSpecialAddressByCreate2, GetSpecialAddressByCreate2_try.
  rewrite catch_all_pair, search_returns. split.
  - intros (i & a & Hi & Hs & Had & Ha & Hok & Ht & Hprev).
    exists i, a. repeat split; auto.
    + now rewrite <- (Htest i a Ha).
    + intros j Hj. destruct (Hprev j Hj) as (aj & Haj & Hno).
      exists aj. split; [exact Haj|]. now rewrite <- (Htest j aj Haj).
  - intros (i & a & Hi & Hs & Had & Ha & Hok & Ht & Hprev).
    exists i, a. repeat split; auto.
    + now rewrite (Htest i a Ha).
    + intros j Hj. destruct (Hprev j Hj) as (aj & Haj & Hno).
      exists aj. split; [exact Haj|]. now rewrite (Htest j aj Haj).
Qed.

Lemma sentinel_tail_witness :
  GetSpecialAddressByCreate2 counting "" "" "2" (-4) 5
    = Some (Some
        ("0x0000000000000000000000000000000000000000000000000000000000000002",
         "0x0000000000000000000000000000000000000032")) <->
  exists i a, i < 5 /\
    "0x0000000000000000000000000000000000000000000000000000000000000002"
      = "0x" ++ salt_of i /\
    "0x0000000000000000000000000000000000000032" = "0x" ++ a /\
    candidate counting "" "" i = Ok a /\
    contains "2" (substring 36 4 a) = true /\
    (forall j, j <= i -> timed_out counting j = false) /\
    (forall j, j < i ->
       exists aj, candidate counting "" "" j = Ok aj /\
                  contains "2" (substring 36 4 aj) = false).
Proof.
  apply (sentinel_tail counting "" "" "2" 5).
  intros s hashed H. injection H as <-. reflexivity.
Defined.

(** ** The two-constraint miner *)

Lemma satisfies_two_windows (c1 c2 : string) (p1 p2 : Z) (a : string) :
  satisfies_two c1 c2 p1 p2 a = true <->
  slice a p1 (Some (p1 + len c1)%Z) = c1 /\
  slice a p2 (Some (p2 + len c2)%Z) = c2.
Proof.
  unfold satisfies_two. now rewrite andb_true_iff, !window_iff.
Qed.

(** Two contents that conflict cannot both fill windows starting at the
    same position. *)
Lemma conflict_fails (c1 c2 : string) (p : Z) (a : string) :
  conflict c1 c2 -> satisfies_two c1 c2 p p a = false.
Proof.
  intros (n & x & y & Hx & Hy & Hxy).
  destruct (satisfies_two c1 c2 p p a) eqn:E; [|reflexivity].
  apply satisfies_two_windows in E. destruct E as [H1 H2].
  unfold slice in H1, H2.
  rewrite <- H1 in Hx. rewrite <- H2 in Hy.
  apply get_substring in Hx. apply get_substring in Hy. congruence.
Qed.

Lemma occupies_fits (content : string) (offset : nat) (address : string) :
  occupies content offset address -> content <> "" ->
  offset + String.length content <= String.length address.
Proof.
  intros H Hne. apply (f_equal String.length) in H.
  rewrite substring_length in H.
  assert (String.length content <> 0)
    by (intros H0; apply Hne, length_zero, H0).
  lia.
Qed.

(** A non-empty content that would run past the 40 characters fills no
    window. *)
Lemma overlong_window_fails (content : string) (position : Z)
  (address : string) :
  String.length address = 40 -> (0 <= position)%Z ->
  (position + len content > 40)%Z -> content <> "" ->
  slice address position (Some (position + len content)%Z) <> content.
Proof.
  intros Hlen Hp Hover Hne H. apply window_forward in H; [|exact Hp].
  apply occupies_fits in H; [|exact Hne]. unfold len in Hover. lia.
Qed.

(** C7: with forward positions, a pair returned by
    [GetSpecialAddressByCreate2_two] has both contents in its address, each
    from its own offset; and two contents that conflict at one common
    position are never found: no fuel gives a pair, and once the clock
    reaches the budget the search ends with the time-out exception and
    [None]. *)
Theorem two_constraints (w : World) (D B c1 c2 : string) (p1 p2 : Z) :
  (0 <= p1)%Z -> (0 <= p2)%Z ->
  (forall fuel salt address,
     GetSpecialAddressByCreate2_two w D B c1 c2 p1 p2 fuel
       = Some (Some (salt, address)) ->
     exists i a, salt = "0x" ++ salt_of i /\ address = "0x" ++ a /\
       candidate w D B i = Ok a /\
       occupies c1 (Z.to_nat p1) a /\ occupies c2 (Z.to_nat p2) a) /\
  (p1 = p2 -> conflict c1 c2 ->
     (forall fuel pair,
        GetSpecialAddressByCreate2_two w D B c1 c2 p1 p2 fuel
          <> Some (Some pair)) /\
     (forall k,
        timed_out w k = true ->
        (forall j, j < k -> exists aj, candidate w D B j = Ok aj) ->
        GetSpecialAddressByCreate2_two_try w D B c1 c2 p1 p2 (S k)
          = Some (Raise TimeOut) /\
        GetSpecialAddressByCreate2_two w D B c1 c2 p1 p2 (S k)
          = Some None)).
Proof.
  intros Hp1 Hp2. split.
  - intros fuel salt address H. apply catch_all_pair, search_returns in H.
    destruct H as (i & a & _ & -> & -> & Ha & Hok & _).
    apply satisfies_two_windows in Hok. destruct Hok as [H1 H2].
    apply window_forward in H1; [|exact Hp1].
    apply window_forward in H2; [|exact Hp2].
    exists i, a. repeat split; assumption.
  - intros <- Hconf. split.
    + intros fuel pair H. apply catch_all_pair in H. revert H.
      apply search_never_returns. intros i a _.
      apply conflict_fails, Hconf.
    + intros k Hk Hhash.
      assert (Hrun : GetSpecialAddressByCreate2_two_try w D B c1 c2 p1 p1 (S k)
                     = Some (Raise TimeOut)).
      { apply search_times_out; [exact Hk|].
        intros j Hj. destruct (Hhash j Hj) as [aj Haj].
        exists aj. split; [exact Haj|]. apply conflict_fails, Hconf. }
      split; [exact Hrun|].
      unfold GetSpecialAddressByCreate2_two. now rewrite Hrun.
Qed.

Lemma two_constraints_witness :
  (forall fuel salt address,
     GetSpecialAddressByCreate2_two counting "" "" "00" "3" 0 38 fuel
       = Some (Some (salt, address)) ->
     exists i a, salt = "0x" ++ salt_of i /\ address = "0x" ++ a /\
       candidate counting "" "" i = Ok a /\
       occupies "00" (Z.to_nat 0) a /\ occupies "3" (Z.to_nat 38) a) /\
  GetSpecialAddressByCreate2_two counting "" "" "00" "3" 0 38 1
    = Some (Some
        ("0x0000000000000000000000000000000000000000000000000000000000000000",
         "0x0000000000000000000000000000000000000030")) /\
  (forall fuel pair,
     GetSpecialAddressByCreate2_two counting "" "" "30" "31" 38 38 fuel
       <> Some (Some pair)) /\
  GetSpecialAddressByCreate2_two_try counting "" "" "30" "31" 38 38 (S 9)
    = Some (Raise TimeOut) /\
  GetSpecialAddressByCreate2_two counting "" "" "30" "31" 38 38 (S 9)
    = Some None.
Proof.
  assert (Hconf : conflict "30" "31").
  { exists 1, "0"%char, "1"%char. repeat split; discriminate. }
  destruct (two_constraints counting "" "" "00" "3" 0 38) as [Hfound _];
    [lia|lia|].
  destruct (two_constraints counting "" "" "30" "31" 38 38) as [_ Hexcl];
    [lia|lia|].
  destruct (Hexcl eq_refl Hconf) as [Hnever Hout].
  split; [exact Hfound|]. split; [vm_compute; reflexivity|].
  split; [exact Hnever|].
  apply (Hout 9); [reflexivity|].
  intros j _. eexists. reflexivity.
Defined.

(** ** Positions that do not fit the address *)

(** C9, as the code has it: a non-empty content at a non-negative position
    that runs past the 40 characters is not rejected; neither miner ever
    returns a pair for it, and once the clock reaches the budget the search
    of either miner ends with the time-out exception and [None], whichever
    of the two constraints of the two-constraint miner is the overlong
    one. *)
Theorem overlong_position_times_out (w : World) (D B content : string)
  (position : Z) :
  digest32 w -> (0 <= position)%Z -> (position + len content > 40)%Z ->
  content <> "" ->
  (forall fuel pair,
     GetSpecialAddressByCreate2 w D B content position fuel
       <> Some (Some pair)) /\
  (forall content2 position2 fuel pair,
     GetSpecialAddressByCreate2_two w D B content content2 position position2
       fuel <> Some (Some pair) /\
     GetSpecialAddressByCreate2_two w D B content2 content position2 position
       fuel <> Some (Some pair)) /\
  (forall k,
     timed_out w k = true ->
     (forall j, j < k -> exists aj, candidate w D B j = Ok aj) ->
     GetSpecialAddressByCreate2_try w D B content position (S k)
       = Some (Raise TimeOut) /\
     GetSpecialAddressByCreate2 w D B content position (S k) = Some None) /\
  (forall content2 position2 k,
     timed_out w k = true ->
     (forall j, j < k -> exists aj, candidate w D B j = Ok aj) ->
     (GetSpecialAddressByCreate2_two_try w D B content content2
        position position2 (S k) = Some (Raise TimeOut) /\
      GetSpecialAddressByCreate2_two w D B content content2
        position position2 (S k) = Some None) /\
     (GetSpecialAddressByCreate2_two_try w D B content2 content
        position2 position (S k) = Some (Raise TimeOut) /\
      GetSpecialAddressByCreate2_two w D B content2 content
        position2 position (S k) = Some None)).
Proof.
  intros Hw Hp Hover Hne.
  assert (Hwin : forall i a, candidate w D B i = Ok a ->
            slice a position (Some (position + len content)%Z) <> content).
  { intros i a Ha. apply overlong_window_fails; auto.
    exact (candidate_length w D B i a Hw Ha). }
  assert (Hfail : forall i a, candidate w D B i = Ok a ->
            satisfies content position a = false).
  { intros i a Ha. rewrite satisfies_window by lia.
    destruct (contains content _) eqn:E; [|reflexivity].
    apply window_iff in E. now apply Hwin in Ha. }
  assert (Hfail_first : forall content2 position2 i a,
            candidate w D B i = Ok a ->
            satisfies_two content content2 position position2 a = false).
  { intros content2 position2 i a Ha.
    destruct (satisfies_two _ _ _ _ a) eqn:E; [|reflexivity].
    apply satisfies_two_windows in E. destruct E as [E1 _].
    now apply (Hwin i a Ha) in E1. }
  assert (Hfail_second : forall content2 position2 i a,
            candidate w D B i = Ok a ->
            satisfies_two content2 content position2 position a = false).
  { intros content2 position2 i a Ha.
    destruct (satisfies_two _ _ _ _ a) eqn:E; [|reflexivity].
    apply satisfies_two_windows in E. destruct E as [_ E2].
    now apply (Hwin i a Ha) in E2. }
  split; [|split; [|split]].
  - intros fuel pair H. apply catch_all_pair in H. revert H.
    apply search_never_returns. exact Hfail.
  - intros content2 position2 fuel pair. split;
      intros H; apply catch_all_pair in H; revert H;
      apply search_never_returns; intros i a Ha;
      [apply (Hfail_first content2 position2 i a Ha)
      |apply (Hfail_second content2 position2 i a Ha)].
  - intros k Hk Hhash.
    assert (Hrun : GetSpecialAddressByCreate2_try w D B content position (S k)
                   = Some (Raise TimeOut)).
    { apply search_times_out; [exact Hk|].
      intros j Hj. destruct (Hhash j Hj) as [aj Haj].
      exists aj. split; [exact Haj|]. exact (Hfail j aj Haj). }
    split; [exact Hrun|].
    unfold GetSpecialAddressByCreate2. now rewrite Hrun.
  - intros content2 position2 k Hk Hhash.
    assert (Hrun1 : GetSpecialAddressByCreate2_two_try w D B content content2
                      position position2 (S k) = Some (Raise TimeOut)).
    { apply search_times_out; [exact Hk|].
      intros j Hj. destruct (Hhash j Hj) as [aj Haj].
      exists aj. split; [exact Haj|].
      exact (Hfail_first content2 position2 j aj Haj). }
    assert (Hrun2 : GetSpecialAddressByCreate2_two_try w D B content2 content
                      position2 position (S k) = Some (Raise TimeOut)).
    { apply search_times_out; [exact Hk|].
      intros j Hj. destruct (Hhash j Hj) as [aj Haj].
      exists aj. split; [exact Haj|].
      exact (Hfail_second content2 position2 j aj Haj). }
    unfold GetSpecialAddressByCreate2_two.
    rewrite Hrun1, Hrun2. repeat split.
Qed.

Lemma overlong_position_times_out_witness :
  (GetSpecialAddressByCreate2_try vanity "" "" "ab" 39 (S 9)
     = Some (Raise TimeOut) /\
   GetSpecialAddressByCreate2 vanity "" "" "ab" 39 (S 9) = Some None) /\
  (GetSpecialAddressByCreate2_two_try vanity "" "" "ab" "00" 39 0 (S 9)
     = Some (Raise TimeOut) /\
   GetSpecialAddressByCreate2_two vanity "" "" "ab" "00" 39 0 (S 9)
     = Some None) /\
  (GetSpecialAddressByCreate2_two_try vanity "" "" "00" "ab" 0 39 (S 9)
     = Some (Raise TimeOut) /\
   GetSpecialAddressByCreate2_two vanity "" "" "00" "ab" 0 39 (S 9)
     = Some None).
Proof.
  assert (Hw : digest32 vanity)
    by (intros s hashed H; injection H as <-; reflexivity).
  assert (Hhash : forall j, j < 9 ->
            exists aj, candidate vanity "" "" j = Ok aj)
    by (intros j _; eexists; reflexivity).
  destruct (overlong_position_times_out vanity "" "" "ab" 39 Hw)
    as (_ & _ & Hone & Htwo); [lia|reflexivity|discriminate|].
  split; [exact (Hone 9 eq_refl Hhash)|].
  exact (Htwo "00" 0%Z 9 eq_refl Hhash).
Defined.

(** The claim of C9 fails at [content = "ab"], [position = 39]: the call
    ends with the time-out exception, which is not an [InvalidInput]
    failure, and with no other. *)
Lemma overlong_position_not_rejected :
  (0 <= 39)%Z /\ (39 + len "ab" > 40)%Z /\
  GetSpecialAddressByCreate2_try vanity "" "" "ab" 39 10
    = Some (Raise TimeOut) /\
  ~ (exists fuel e,
       GetSpecialAddressByCreate2_try vanity "" "" "ab" 39 fuel
         = Some (Raise e) /\
       failure_of e = InvalidInput).
Proof.
  assert (Hrun : GetSpecialAddressByCreate2_try vanity "" "" "ab" 39 10
                 = Some (Raise TimeOut)) by (vm_compute; reflexivity).
  repeat split; try (vm_compute; congruence); try exact Hrun.
  intros (fuel & e & He & Hclass).
  pose proof (while1_deterministic _ _ _ _ _ _ Hrun He) as Heq.
  injection Heq as <-. discriminate.
Qed.

End MinerProofs.

(** * Further properties of the CRT solver *)

Module CRTExtra.
Import Numbertheory CRTProofs.
Local Open Scope Z_scope.

(** The remainder found through [index] is congruent to the one at the
    position of the loop, whatever the remainders are. *)
Lemma getitem_index_cong (moudle a : list Z) (k : nat) (mi ak : Z) :
  List.length moudle = List.length a ->
  pairwise_coprime moudle ->
  (forall m, In m moudle -> 0 < m) ->
  nth_error moudle k = Some mi -> nth_error a k = Some ak ->
  exists a', getitem a (index mi moudle) = Ok a' /\ a' mod mi = ak mod mi.
Proof.
  intros Hlen Hcop Hpos Hk Hak.
  destruct (index_first moudle mi k Hk) as (k' & -> & Hle & Hk').
  assert (Hlt : (k' < List.length a)%nat).
  { rewrite <- Hlen. apply nth_error_Some. congruence. }
  apply nth_error_Some in Hlt.
  simpl. destruct (nth_error a k') as [a'|] eqn:Ha'; [|congruence].
  exists a'. split; [reflexivity|].
  destruct (Nat.eq_dec k' k) as [->|Hne]; [congruence|].
  pose proof (Hcop k' k mi mi Hne Hk' Hk) as Hg.
  rewrite Z.gcd_diag in Hg.
  assert (0 < mi) by (apply Hpos; eapply nth_error_In; eauto).
  replace mi with 1 by lia. now rewrite !Z.mod_1_r.
Qed.

Lemma CRT_loop_congruent (moudle a : list Z) :
  List.length moudle = List.length a ->
  (forall m, In m moudle -> 0 < m) ->
  pairwise_coprime moudle ->
  forall rest pre result,
    moudle = pre ++ rest ->
    (forall j m r, nth_error moudle j = Some m -> nth_error a j = Some r ->
       result mod m = if (j <? List.length pre)%nat then r mod m else 0) ->
    exists x, CRT_loop (prod moudle) moudle a rest result = Ok x /\
              solves moudle a x.
Proof.
  intros Hlen Hpos Hcop.
  assert (HM : 0 < prod moudle) by now apply prod_pos.
  induction rest as [|mi rest IH]; intros pre result Hsplit Hinv.
  - exists result. split; [reflexivity|].
    intros j m r Hm Hr. rewrite (Hinv j m r Hm Hr).
    rewrite app_nil_r in Hsplit. subst pre.
    assert (j < List.length moudle)%nat by (apply nth_error_Some; congruence).
    destruct (Nat.ltb_spec j (List.length moudle)); [reflexivity|lia].
  - set (k := List.length pre).
    assert (Hk : nth_error moudle k = Some mi)
      by (rewrite Hsplit; apply nth_error_middle).
    assert (Hmi : 0 < mi) by (apply Hpos; eapply nth_error_In; eauto).
    assert (Hother : forall j m, nth_error moudle j = Some m -> j <> k ->
                                 In m (pre ++ rest)).
    { intros j m Hm Hj. rewrite Hsplit in Hm.
      apply nth_error_split in Hm. apply in_or_app.
      destruct Hm as [[_ ?]|[[? _]|[_ ?]]];
        [now left | contradiction | now right]. }
    assert (Hg : Z.gcd (prod (pre ++ rest)) mi = 1).
    { apply prod_coprime. intros x Hx.
      assert (exists j, j <> k /\ nth_error moudle j = Some x)
        as (j & Hj & Hjx).
      { apply in_app_or in Hx. destruct Hx as [Hx|Hx];
          apply In_nth_error in Hx; destruct Hx as [n Hn].
        - assert (n < k)%nat by (apply nth_error_Some; congruence).
          exists n. split; [lia|]. rewrite Hsplit, nth_error_app1; assumption.
        - exists (k + S n)%nat. split; [lia|].
          rewrite Hsplit, nth_error_app2 by lia.
          replace (k + S n - List.length pre)%nat with (S n)
            by (unfold k; lia).
          exact Hn. }
      exact (Hcop j k x mi Hj Hjx Hk). }
    assert (exists ak, nth_error a k = Some ak) as [ak Hak].
    { destruct (nth_error a k) eqn:E; [eauto|].
      apply nth_error_None in E.
      assert (k < List.length moudle)%nat by (apply nth_error_Some; congruence).
      lia. }
    destruct (getitem_index_cong moudle a k mi ak Hlen Hcop Hpos Hk Hak)
      as (a' & Hget & Ha').
    cbn [CRT_loop].
    replace (floordiv (prod moudle) mi) with (Ok (prod (pre ++ rest)))
      by (rewrite Hsplit; symmetry; apply floordiv_split; lia).
    cbn [bind]. rewrite invert_coprime by (trivial; lia).
    cbn [bind]. rewrite Hget.
    cbn [bind]. rewrite pymod_nonzero by lia. cbn [bind].
    rewrite Z.abs_eq by lia.
    apply (IH (pre ++ [mi])).
    { rewrite <- app_assoc. exact Hsplit. }
    intros j m r Hm Hr.
    assert (0 < m) by (apply Hpos; eapply nth_error_In; eauto).
    assert (Hdiv : (m | prod moudle))
      by (apply In_divide_prod; eapply nth_error_In; eauto).
    rewrite Z.mod_mod_divide by assumption.
    rewrite length_app. cbn [List.length]. fold k.
    destruct (Nat.eq_dec j k) as [->|Hj].
    + assert (m = mi) by congruence. assert (r = ak) by congruence. subst m r.
      pose proof (Hinv k mi ak Hk Hak) as H0.
      rewrite Nat.ltb_irrefl in H0.
      destruct (Nat.ltb_spec k (k + 1)); [|lia].
      replace (a' * prod (pre ++ rest) * Z.invmod (prod (pre ++ rest)) mi)
        with (a' * (Z.invmod (prod (pre ++ rest)) mi * prod (pre ++ rest)))
        by lia.
      rewrite Zplus_mod, H0, Z.add_0_l, Zmod_mod.
      rewrite Zmult_mod, (Z.invmod_coprime' _ _ Hg), <- Zmult_mod, Z.mul_1_r.
      exact Ha'.
    + destruct (In_divide_prod _ _ (Hother j m Hm Hj)) as [c Hc].
      rewrite Hc.
      replace (result + a' * (c * m) * Z.invmod (c * m) mi)
        with (result + (a' * c * Z.invmod (c * m) mi) * m) by lia.
      rewrite Z_mod_plus_full, (Hinv j m r Hm Hr).
      unfold k.
      destruct (Nat.ltb_spec j (List.length pre)),
               (Nat.ltb_spec j (List.length pre + 1)); try reflexivity; lia.
Qed.

(** A run of [CRT] on pairwise coprime positive moduli: the loop ends with
    a solution [y], and the value returned is [y] reduced modulo the
    product. *)
Lemma CRT_run (moudle a : list Z) :
  moudle <> [] ->
  List.length moudle = List.length a ->
  (forall m, In m moudle -> 0 < m) ->
  pairwise_coprime moudle ->
  exists y, CRT moudle a = Ok (y mod prod moudle) /\ solves moudle a y.
Proof.
  intros Hne Hlen Hpos Hcop.
  destruct moudle as [|m0 l] eqn:E; [congruence|].
  rewrite <- E in *.
  assert (HM : 0 < prod moudle) by now apply prod_pos.
  destruct (CRT_loop_congruent moudle a Hlen Hpos Hcop moudle [] 0)
    as (y & Hy & Hsol).
  { reflexivity. }
  { intros j m r _ _. now destruct j. }
  exists y. split; [|exact Hsol].
  unfold CRT. rewrite E at 1. rewrite reduce_mul_cons, <- E.
  cbn [bind]. rewrite Hy. cbn [bind]. apply pymod_nonzero. lia.
Qed.

(** The remainders need not be reduced: for pairwise coprime positive
    moduli and any integer remainders, [CRT] returns a solution of the
    system that lies in [0 .. M), [M] the product of the moduli. *)
Theorem CRT_unreduced (moudle a : list Z) :
  moudle <> [] ->
  List.length moudle = List.length a ->
  (forall m, In m moudle -> 0 < m) ->
  pairwise_coprime moudle ->
  exists x, CRT moudle a = Ok x /\ 0 <= x < prod moudle /\
            solves moudle a x.
Proof.
  intros Hne Hlen Hpos Hcop.
  assert (HM : 0 < prod moudle) by now apply prod_pos.
  destruct (CRT_run moudle a Hne Hlen Hpos Hcop) as (y & Hrun & Hsol).
  exists (y mod prod moudle). split; [exact Hrun|]. split.
  - apply Z.mod_pos_bound, HM.
  - intros i m r Hm Hr. rewrite Z.mod_mod_divide; [eauto|].
    apply In_divide_prod. eapply nth_error_In; eauto.
Qed.

Lemma CRT_unreduced_witness :
  exists x, CRT [3; 5; 7] [-1; 14; 10] = Ok x /\ 0 <= x < prod [3; 5; 7] /\
            solves [3; 5; 7] [-1; 14; 10] x.
Proof.
  apply CRT_unreduced.
  - discriminate.
  - reflexivity.
  - simpl. intros m [<-|[<-|[<-|[]]]]; reflexivity.
  - intros [|[|[|i]]] [|[|[|j]]] mi mj Hij Hi Hj; simpl in Hi, Hj;
      try congruence; try (destruct i; discriminate);
      try (destruct j; discriminate);
      injection Hi as <-; injection Hj as <-; reflexivity.
Defined.

Lemma pairwise_coprime_tail (m : Z) (l : list Z) :
  pairwise_coprime (m :: l) ->
  pairwise_coprime l /\ forall x, In x l -> Z.gcd x m = 1.
Proof.
  intros H. split.
  - intros i j mi mj Hij Hi Hj. apply (H (S i) (S j)); auto.
  - intros x Hx. apply In_nth_error in Hx. destruct Hx as [n Hn].
    apply (H (S n) 0%nat); [lia|exact Hn|reflexivity].
Qed.

(** What every modulus of a pairwise coprime list divides, their product
    divides. *)
Lemma prod_divide (l : list Z) (d : Z) :
  pairwise_coprime l -> (forall m, In m l -> (m | d)) -> (prod l | d).
Proof.
  induction l as [|m l IH]; intros Hcop Hdiv.
  - apply Z.divide_1_l.
  - apply pairwise_coprime_tail in Hcop. destruct Hcop as [Hl Hm].
    assert (Hd : (m | d)) by (apply Hdiv; now left).
    assert (Hp : (prod l | d)) by (apply IH; [exact Hl|]; intros; apply Hdiv; now right).
    destruct Hd as [q ->].
    assert (Hq : (prod l | q)).
    { apply (Z.gauss _ m); [now rewrite Z.mul_comm|].
      now apply prod_coprime. }
    destruct Hq as [q' ->]. exists q'. simpl. lia.
Qed.

(** The value returned is the least non-negative solution: every solution
    of the system reduces to it modulo the product of the moduli. *)
Theorem CRT_least_solution (moudle a : list Z) (x : Z) :
  List.length moudle = List.length a ->
  (forall m, In m moudle -> 0 < m) ->
  pairwise_coprime moudle ->
  CRT moudle a = Ok x ->
  forall y, solves moudle a y ->
    y mod prod moudle = x /\ (0 <= y -> x <= y).
Proof.
  intros Hlen Hpos Hcop Hx y Hy.
  assert (Hne : moudle <> []) by (intros ->; discriminate).
  assert (HM : 0 < prod moudle) by now apply prod_pos.
  destruct (CRT_run moudle a Hne Hlen Hpos Hcop) as (z & Hrun & Hz).
  assert (Hxz : x = z mod prod moudle) by congruence.
  assert (Hrange : 0 <= x < prod moudle)
    by (rewrite Hxz; apply Z.mod_pos_bound, HM).
  assert (Hsol : solves moudle a x).
  { intros i m r Hm Hr. rewrite Hxz, Z.mod_mod_divide; [eauto|].
    apply In_divide_prod. eapply nth_error_In; eauto. }
  assert (Hdiv : (prod moudle | y - x)).
  { apply prod_divide; [exact Hcop|]. intros m Hm.
    apply In_nth_error in Hm. destruct Hm as [i Hi].
    assert (exists r, nth_error a i = Some r) as [r Hr].
    { destruct (nth_error a i) eqn:E; [eauto|].
      apply nth_error_None in E.
      assert (i < List.length moudle)%nat by (apply nth_error_Some; congruence).
      lia. }
    assert (0 < m) by (apply Hpos; eapply nth_error_In; eauto).
    apply Z.mod_divide; [lia|].
    rewrite Zminus_mod, (Hy i m r Hi Hr), (Hsol i m r Hi Hr), Z.sub_diag.
    apply Z.mod_0_l. lia. }
  assert (Hmod : y mod prod moudle = x).
  { destruct Hdiv as [q Hq].
    replace y with (x + q * prod moudle) by lia.
    rewrite Z_mod_plus_full. apply Z.mod_small, Hrange. }
  split; [exact Hmod|]. intros Hy0.
  rewrite <- Hmod. apply Z.mod_le; lia.
Qed.

Lemma CRT_least_solution_witness :
  164 mod prod [3; 5; 7] = 59 /\ (0 <= 164 -> 59 <= 164).
Proof.
  apply (CRT_least_solution [3; 5; 7] [2; 4; 3] 59).
  - reflexivity.
  - simpl. intros m [<-|[<-|[<-|[]]]]; reflexivity.
  - intros [|[|[|i]]] [|[|[|j]]] mi mj Hij Hi Hj; simpl in Hi, Hj;
      try congruence; try (destruct i; discriminate);
      try (destruct j; discriminate);
      injection Hi as <-; injection Hj as <-; reflexivity.
  - vm_compute. reflexivity.
  - intros [|[|[|i]]] m r Hm Hr; simpl in Hm, Hr;
      try (destruct i; discriminate);
      injection Hm as <-; injection Hr as <-; reflexivity.
Defined.

Lemma prod_zero (l : list Z) : In 0 l -> prod l = 0.
Proof.
  induction l as [|x l IH]; simpl; [tauto|].
  intros [->|H]; [reflexivity|]. rewrite IH by exact H. lia.
Qed.

Lemma getitem_error (a : list Z) (k : option nat) (e : exn) :
  getitem a k = Raise e -> e = IndexError.
Proof.
  destruct k as [n|]; simpl; [destruct (nth_error a n)|]; congruence.
Qed.

(** A zero among the moduli makes the product zero, and [CRT] then never
    returns a number: the loop raises, or the final [% M] does. *)
Theorem CRT_zero_modulus (moudle a : list Z) :
  In 0 moudle -> exists e, CRT moudle a = Raise e /\ e <> TypeError.
Proof.
  intros H0. destruct moudle as [|m0 l]; [destruct H0|].
  unfold CRT. rewrite reduce_mul_cons, (prod_zero _ H0).
  cbn [bind CRT_loop]. set (moudle := m0 :: l).
  unfold floordiv, invert, pymod.
  destruct (Z.eqb_spec m0 0) as [->|Hm0]; cbn [bind].
  - exists ZeroDivisionError. split; [reflexivity|discriminate].
  - rewrite Z.div_0_l by exact Hm0.
    destruct (Z.gcd 0 m0 =? 1); cbn [bind].
    + destruct (getitem a (index m0 moudle)) as [ai|e] eqn:G; cbn [bind].
      * exists ZeroDivisionError. split; [reflexivity|discriminate].
      * exists e. split; [reflexivity|].
        rewrite (getitem_error _ _ _ G). discriminate.
    + exists NoInverseExists. split; [reflexivity|discriminate].
Qed.

Lemma CRT_zero_modulus_witness :
  exists e, CRT [3; 0; 7] [2; 0; 3] = Raise e /\ e <> TypeError.
Proof. apply CRT_zero_modulus. simpl. tauto. Defined.

(** Remainders beyond the moduli are never read. *)
Lemma getitem_app (a extra : list Z) (n : nat) :
  (n < List.length a)%nat ->
  getitem (a ++ extra) (Some n) = getitem a (Some n).
Proof. intros H. simpl. now rewrite nth_error_app1. Qed.

Lemma index_found (moudle : list Z) (mi : Z) :
  In mi moudle ->
  exists k, index mi moudle = Some k /\ (k < List.length moudle)%nat.
Proof.
  intros H. apply In_nth_error in H. destruct H as [n Hn].
  destruct (index_first moudle mi n Hn) as (k & Hk & _ & Hnth).
  exists k. split; [exact Hk|]. apply nth_error_Some. congruence.
Qed.

Theorem CRT_ignores_extra_remainders (moudle a extra : list Z) :
  (List.length moudle <= List.length a)%nat ->
  CRT moudle (a ++ extra) = CRT moudle a.
Proof.
  intros Hlen. unfold CRT.
  destruct (reduce_mul moudle) as [M|e]; [|reflexivity]. cbn [bind].
  assert (Hloop : forall rest result,
            (forall m, In m rest -> In m moudle) ->
            CRT_loop M moudle (a ++ extra) rest result
            = CRT_loop M moudle a rest result).
  { induction rest as [|mi rest IH]; intros result Hin; [reflexivity|].
    cbn [CRT_loop].
    destruct (floordiv M mi) as [Mi|e]; [|reflexivity]. cbn [bind].
    destruct (invert Mi mi) as [inv|e]; [|reflexivity]. cbn [bind].
    destruct (index_found moudle mi (Hin mi (or_introl eq_refl)))
      as (k & -> & Hk).
    rewrite getitem_app by lia.
    destruct (getitem a (Some k)) as [ai|e]; [|reflexivity]. cbn [bind].
    destruct (pymod _ M) as [r|e]; [|reflexivity]. cbn [bind].
    apply IH. intros m Hm. apply Hin. now right. }
  rewrite Hloop; [reflexivity|auto].
Qed.

Lemma CRT_ignores_extra_remainders_witness :
  CRT [3; 5; 7] ([2; 4; 3] ++ [100; 200]) = CRT [3; 5; 7] [2; 4; 3].
Proof. apply CRT_ignores_extra_remainders. simpl. lia. Defined.

Lemma others_coprime (moudle pre rest : list Z) (mi : Z) :
  pairwise_coprime moudle -> moudle = pre ++ mi :: rest ->
  Z.gcd (prod (pre ++ rest)) mi = 1.
Proof.
  intros Hcop Hsplit. apply prod_coprime. intros x Hx.
  assert (Hk : nth_error moudle (List.length pre) = Some mi)
    by (rewrite Hsplit; apply nth_error_middle).
  apply in_app_or in Hx. destruct Hx as [Hx|Hx];
    apply In_nth_error in Hx; destruct Hx as [n Hn].
  - assert (n < List.length pre)%nat by (apply nth_error_Some; congruence).
    apply (Hcop n (List.length pre)); [lia| |exact Hk].
    rewrite Hsplit, nth_error_app1; assumption.
  - apply (Hcop (List.length pre + S n)%nat (List.length pre));
      [lia| |exact Hk].
    rewrite Hsplit, nth_error_app2 by lia.
    replace (List.length pre + S n - List.length pre)%nat with (S n) by lia.
    exact Hn.
Qed.

(** With fewer remainders than moduli, on pairwise coprime moduli above 1,
    the loop runs through the remainders there are and then fails on the
    missing one with [IndexError]. *)
Theorem CRT_missing_remainder (moudle a : list Z) :
  (List.length a < List.length moudle)%nat ->
  (forall m, In m moudle -> 1 < m) ->
  pairwise_coprime moudle ->
  CRT moudle a = Raise IndexError.
Proof.
  intros Hlen Hbig Hcop.
  assert (HM : 0 < prod moudle) by (apply prod_pos; intros m Hm;
                                    specialize (Hbig m Hm); lia).
  assert (Hloop : forall rest pre result,
            moudle = pre ++ rest ->
            (List.length pre <= List.length a)%nat ->
            CRT_loop (prod moudle) moudle a rest result = Raise IndexError).
  { induction rest as [|mi rest IH]; intros pre result Hsplit Hpre.
    - rewrite app_nil_r in Hsplit. subst pre. lia.
    - assert (Hk : nth_error moudle (List.length pre) = Some mi)
        by (rewrite Hsplit; apply nth_error_middle).
      assert (Hmi : 1 < mi) by (apply Hbig; eapply nth_error_In; eauto).
      cbn [CRT_loop].
      replace (floordiv (prod moudle) mi) with (Ok (prod (pre ++ rest)))
        by (rewrite Hsplit; symmetry; apply floordiv_split; lia).
      cbn [bind].
      rewrite invert_coprime
        by (try lia; eapply others_coprime; eauto).
      cbn [bind].
      destruct (index_first moudle mi _ Hk) as (k' & -> & Hle & Hk').
      assert (k' = List.length pre).
      { destruct (Nat.eq_dec k' (List.length pre)) as [|Hne]; [assumption|].
        pose proof (Hcop k' _ mi mi Hne Hk' Hk) as Hg.
        rewrite Z.gcd_diag in Hg. lia. }
      subst k'. cbn [getitem].
      destruct (nth_error a (List.length pre)) as [ai|] eqn:Ha;
        [|reflexivity].
      cbn [bind]. rewrite pymod_nonzero by lia. cbn [bind].
      apply (IH (pre ++ [mi])).
      + rewrite <- app_assoc. exact Hsplit.
      + rewrite length_app. cbn [List.length].
        assert (List.length pre < List.length a)%nat
          by (apply nth_error_Some; congruence).
        lia. }
  destruct moudle as [|m0 l] eqn:E; [simpl in Hlen; lia|].
  rewrite <- E in *. unfold CRT.
  rewrite E at 1. rewrite reduce_mul_cons, <- E. cbn [bind].
  rewrite (Hloop moudle [] 0); [reflexivity|reflexivity|simpl; lia].
Qed.

Lemma CRT_missing_remainder_witness :
  CRT [3; 5; 7] [2; 4] = Raise IndexError.
Proof.
  apply CRT_missing_remainder.
  - simpl. lia.
  - simpl. intros m [<-|[<-|[<-|[]]]]; reflexivity.
  - intros [|[|[|i]]] [|[|[|j]]] mi mj Hij Hi Hj; simpl in Hi, Hj;
      try congruence; try (destruct i; discriminate);
      try (destruct j; discriminate);
      injection Hi as <-; injection Hj as <-; reflexivity.
Defined.

End CRTExtra.

(** * Properties of the signature functions *)

Module SignatureProofs.
Import BlockchainUtils MinerProofs.
Local Open Scope string_scope.

(** ** Hex digits *)

Lemma of_pos_longer (n : nat) :
  forall (p : positive) (rest : string),
    Pos.size_nat p <= n ->
    String.length rest < String.length (HexString.Raw.of_pos p rest).
Proof.
  induction n as [|n IH]; intros p rest Hp.
  - destruct p; simpl in Hp; lia.
  - do 4 try destruct p as [p|p|]; cbn [HexString.Raw.of_pos String.length];
      try lia;
      (eapply Nat.lt_trans; [|apply IH; simpl in Hp; lia]; simpl; lia).
Qed.

Lemma of_pos_length_lower (k : nat) :
  forall (p : positive) (rest : string),
    4 * k < Pos.size_nat p ->
    k + String.length rest < String.length (HexString.Raw.of_pos p rest).
Proof.
  induction k as [|k IH]; intros p rest Hp.
  - apply (of_pos_longer (Pos.size_nat p)). lia.
  - do 4 try destruct p as [p|p|]; cbn [HexString.Raw.of_pos];
      try (simpl in Hp; lia);
      (eapply Nat.le_lt_trans; [|apply IH; simpl in Hp; lia]; simpl; lia).
Qed.

Lemma size_nat_lt (p : positive) :
  forall k : nat, Pos.size_nat p <= k -> (Npos p < 2 ^ N.of_nat k)%N.
Proof.
  induction p as [p IH|p IH|]; intros [|k] H; simpl Pos.size_nat in H;
    try lia.
  - rewrite Nat2N.inj_succ, N.pow_succ_r'.
    specialize (IH k ltac:(lia)). lia.
  - rewrite Nat2N.inj_succ, N.pow_succ_r'.
    specialize (IH k ltac:(lia)). lia.
  - rewrite Nat2N.inj_succ, N.pow_succ_r'.
    assert (0 < 2 ^ N.of_nat k)%N by (apply N.neq_0_lt_0, N.pow_nonzero; lia).
    lia.
Qed.

Lemma size_nat_iff (p : positive) (k : nat) :
  Pos.size_nat p <= k <-> (Z.pos p < 2 ^ Z.of_nat k)%Z.
Proof.
  assert (Hpow : (2 ^ Z.of_nat k)%Z = Z.of_N (2 ^ N.of_nat k)).
  { rewrite N2Z.inj_pow, nat_N_Z. reflexivity. }
  rewrite Hpow. change (Z.pos p) with (Z.of_N (Npos p)).
  rewrite <- N2Z.inj_lt. split; [apply size_nat_lt|apply size_nat_bound].
Qed.

(** A positive number has [k + 1] hex digits exactly when it lies in
    [16^k .. 16^(k+1)). *)
Lemma hexdigits_length (p : positive) (k : nat) :
  String.length (hexdigits p) = S k <->
  (16 ^ Z.of_nat k <= Z.pos p < 16 ^ Z.of_nat (S k))%Z.
Proof.
  assert (H16 : forall m : nat, (16 ^ Z.of_nat m = 2 ^ Z.of_nat (4 * m))%Z).
  { intros m. rewrite Nat2Z.inj_mul, Z.pow_mul_r by lia. reflexivity. }
  rewrite !H16.
  pose proof (size_nat_iff p (4 * k)) as Hlo.
  pose proof (size_nat_iff p (4 * S k)) as Hhi.
  pose proof (of_pos_length k p "") as Hup1.
  pose proof (of_pos_length (S k) p "") as Hup2.
  pose proof (of_pos_length_lower k p "") as Hlow1.
  pose proof (of_pos_length_lower (S k) p "") as Hlow2.
  unfold hexdigits. simpl String.length in *.
  destruct (le_gt_dec (Pos.size_nat p) (4 * k)),
           (le_gt_dec (Pos.size_nat p) (4 * S k)); split; intros; lia.
Qed.

Lemma of_pos_rest (n : nat) :
  forall (p : positive) (r1 r2 : string),
    Pos.size_nat p <= n ->
    HexString.Raw.of_pos p (r1 ++ r2) = HexString.Raw.of_pos p r1 ++ r2.
Proof.
  induction n as [|n IH]; intros p r1 r2 Hp.
  - destruct p; simpl in Hp; lia.
  - do 4 try destruct p as [p|p|]; cbn [HexString.Raw.of_pos];
      try reflexivity;
      (rewrite <- IH by (simpl in Hp; lia); reflexivity).
Qed.

Lemma of_pos_digits (p : positive) (rest : string) :
  HexString.Raw.of_pos p rest = hexdigits p ++ rest.
Proof.
  unfold hexdigits.
  rewrite <- (of_pos_rest (Pos.size_nat p)) by lia. reflexivity.
Qed.

(** [pos_hex_app p q] has the digits of [p] followed by those of [q]. *)
Lemma of_pos_hex_app (n : nat) :
  forall (p q : positive) (rest : string),
    Pos.size_nat q <= n ->
    HexString.Raw.of_pos (pos_hex_app p q) rest
    = HexString.Raw.of_pos p (HexString.Raw.of_pos q rest).
Proof.
  induction n as [|n IH]; intros p q rest Hq.
  - destruct q; simpl in Hq; lia.
  - do 4 try destruct q as [q|q|];
      cbn [HexString.Raw.of_pos pos_hex_app];
      try reflexivity;
      (rewrite IH by (simpl in Hq; lia); reflexivity).
Qed.

Lemma hexdigits_app (p q : positive) :
  hexdigits (pos_hex_app p q) = hexdigits p ++ hexdigits q.
Proof.
  unfold hexdigits at 1.
  rewrite (of_pos_hex_app (Pos.size_nat q)) by lia.
  apply of_pos_digits.
Qed.

(** ** Cutting a string of known length *)

Lemma substring_glue (a n m : nat) (s : string) :
  substring a n s ++ substring (a + n) m s = substring a (n + m) s.
Proof.
  revert s; induction a as [|a IHa]; intros s.
  - simpl. revert s; induction n as [|n IHn]; intros s.
    + now rewrite substring_zero.
    + destruct s as [|c s]; simpl.
      * now destruct m.
      * now rewrite IHn.
  - destruct s as [|c s]; simpl; [reflexivity|apply IHa].
Qed.

Lemma slice_between (s : string) (i j : nat) :
  i <= j <= String.length s ->
  slice s (Z.of_nat i) (Some (Z.of_nat j)) = substring i (j - i) s.
Proof.
  intros H. unfold slice, bound, len.
  destruct (Z.ltb_spec (Z.of_nat i) 0) as [Hneg|_]; [lia|].
  destruct (Z.ltb_spec (Z.of_nat j) 0) as [Hneg|_]; [lia|].
  rewrite !Z.min_l by lia. f_equal; lia.
Qed.

Lemma slice_before_end (s : string) (i j : nat) :
  0 < j -> i + j <= String.length s ->
  slice s (Z.of_nat i) (Some (- Z.of_nat j)%Z)
  = substring i (String.length s - j - i) s.
Proof.
  intros Hj H. unfold slice, bound, len.
  destruct (Z.ltb_spec (Z.of_nat i) 0) as [Hneg|_]; [lia|].
  destruct (Z.ltb_spec (- Z.of_nat j) 0) as [_|Hpos]; [|lia].
  rewrite Z.min_l, Z.max_r by lia. f_equal; lia.
Qed.

Lemma slice_last (s : string) (j : nat) :
  0 < j <= String.length s ->
  slice s (- Z.of_nat j) None = substring (String.length s - j) j s.
Proof.
  intros H. unfold slice, bound, len.
  destruct (Z.ltb_spec (- Z.of_nat j) 0) as [_|Hpos]; [|lia].
  rewrite Z.max_r by lia. f_equal; lia.
Qed.

(** The three cuts of [SignatureToRSV] on a 132-character string are its
    130 characters after the first two, in order. *)
Lemma cuts_132 (d : string) :
  String.length d = 130 ->
  let Signature := "0x" ++ d in
  slice Signature 2 (Some 66%Z) = substring 0 64 d /\
  slice Signature 66 (Some (-2)%Z) = substring 64 64 d /\
  slice Signature (-2) None = substring 128 2 d /\
  d = substring 0 64 d ++ substring 64 64 d ++ substring 128 2 d.
Proof.
  intros Hd Signature.
  assert (Hlen : String.length Signature = 132) by (simpl; lia).
  repeat split.
  - change 2%Z with (Z.of_nat 2). change 66%Z with (Z.of_nat 66).
    rewrite slice_between by lia. reflexivity.
  - change 66%Z with (Z.of_nat 66). change (-2)%Z with (- Z.of_nat 2)%Z.
    rewrite slice_before_end by lia. rewrite Hlen. reflexivity.
  - change (-2)%Z with (- Z.of_nat 2)%Z.
    rewrite slice_last by lia. rewrite Hlen. reflexivity.
  - rewrite (substring_glue 64 64 2), (substring_glue 0 64 66).
    change (64 + 66) with 130. rewrite <- Hd. symmetry.
    apply substring_all.
Qed.

Lemma substring_append_l (a b : string) :
  substring 0 (String.length a) (a ++ b) = a.
Proof. induction a as [|c a IH]; simpl; [apply substring_zero|congruence]. Qed.

Lemma substring_append_r (a b : string) (n m : nat) :
  substring (String.length a + n) m (a ++ b) = substring n m b.
Proof. induction a as [|c a IH]; simpl; [reflexivity|exact IH]. Qed.

(** ** Which values pass the length assertions *)

(** [hex(n)] of a non-negative [n] has [k + 2] digits after its ["0x"]
    exactly when [n] lies in [16^(k+1) .. 16^(k+2)). *)
Lemma hexZ_length (n : Z) (k : nat) :
  (0 <= n)%Z ->
  (len (hexZ n) =? Z.of_nat (S (S k)) + 2)%Z = true <->
  (16 ^ Z.of_nat (S k) <= n < 16 ^ Z.of_nat (S (S k)))%Z.
Proof.
  intros Hn. rewrite Z.eqb_eq. destruct n as [|p|p]; [| |lia].
  - assert (0 < 16 ^ Z.of_nat (S k))%Z by (apply Z.pow_pos_nonneg; lia).
    unfold len. simpl String.length. lia.
  - rewrite <- (hexdigits_length p (S k)).
    unfold len, hexZ, HexString.of_Z, HexString.of_pos. fold (hexdigits p).
    simpl String.length. lia.
Qed.

Section Signatures.
Variable int16 : string -> option Z.

(** [SignatureToRSV] returns a dictionary exactly for the values with 130
    significant hex digits: a signature whose first hex digit is zero is
    turned down, like every too short or too long one. *)
Theorem SignatureToRSV_accepts (Signature : string) (n : Z) :
  int16 Signature = Some n -> (0 <= n)%Z ->
  SignatureToRSV int16 Signature <> None <->
  (16 ^ 129 <= n < 16 ^ 130)%Z.
Proof.
  intros Hint Hn. unfold SignatureToRSV. rewrite Hint.
  change (130 + 2)%Z with (Z.of_nat (S (S 128)) + 2)%Z.
  change 129%Z with (Z.of_nat (S 128)).
  change 130%Z with (Z.of_nat (S (S 128))).
  rewrite <- (hexZ_length n 128 Hn).
  destruct (len (hexZ n) =? _)%Z; split; congruence.
Qed.

(** What it returns: the normalised signature ["0x" ++ r ++ s ++ v] with
    [r] and [s] of 64 and [v] of 2 hex characters, and each part under its
    own ["0x"]. *)
Theorem SignatureToRSV_splits (Signature : string) (n : Z) (parts : Parts) :
  int16 Signature = Some n -> (0 <= n)%Z ->
  SignatureToRSV int16 Signature = Some parts ->
  exists r s v,
    String.length r = 64 /\ String.length s = 64 /\ String.length v = 2 /\
    hexZ n = "0x" ++ r ++ s ++ v /\
    parts = {| partSignature := "0x" ++ r ++ s ++ v;
               partR := "0x" ++ r;
               partS := "0x" ++ s;
               partV := "0x" ++ v |}.
Proof.
  intros Hint Hn. unfold SignatureToRSV. rewrite Hint.
  destruct (Z.eqb_spec (len (hexZ n)) (130 + 2)) as [Hlen|]; [|discriminate].
  intros H. injection H as <-.
  destruct n as [|p|p]; [discriminate Hlen| |lia].
  unfold hexZ, HexString.of_Z, HexString.of_pos in *. fold (hexdigits p) in *.
  set (d := hexdigits p) in *.
  assert (Hd : String.length d = 130)
    by (unfold len in Hlen; simpl String.length in Hlen; lia).
  destruct (cuts_132 d Hd) as (HR & HS & HV & Hsplit).
  change (String "0" (String "x" d)) with ("0x" ++ d) in *.
  exists (substring 0 64 d), (substring 64 64 d), (substring 128 2 d).
  rewrite !substring_length, Hd.
  repeat split; try reflexivity.
  - now rewrite <- Hsplit.
  - rewrite HR, HS, HV, <- Hsplit. reflexivity.
Qed.

(** [RSVToSignature] returns a dictionary exactly when [R] and [S] have 64
    significant hex digits and [V] has two: a part with a leading zero
    digit, such as a [V] of [0] or [1], is turned down. *)
Theorem RSVToSignature_accepts (R0 S0 V0 : string) (r s v : Z) :
  int16 R0 = Some r -> int16 S0 = Some s -> int16 V0 = Some v ->
  (0 <= r)%Z -> (0 <= s)%Z -> (0 <= v)%Z ->
  RSVToSignature int16 R0 S0 V0 <> None <->
  (16 ^ 63 <= r < 16 ^ 64)%Z /\ (16 ^ 63 <= s < 16 ^ 64)%Z /\
  (16 <= v < 256)%Z.
Proof.
  intros HR HS HV Hr Hs Hv. unfold RSVToSignature. rewrite HR, HS, HV.
  change (64 + 2)%Z with (Z.of_nat (S (S 62)) + 2)%Z.
  change (2 + 2)%Z with (Z.of_nat (S (S 0)) + 2)%Z.
  change 63%Z with (Z.of_nat (S 62)).
  change 64%Z with (Z.of_nat (S (S 62))).
  change 16%Z with (16 ^ Z.of_nat (S 0))%Z at 5.
  change 256%Z with (16 ^ Z.of_nat (S (S 0)))%Z.
  rewrite <- (hexZ_length r 62 Hr), <- (hexZ_length s 62 Hs),
    <- (hexZ_length v 0 Hv).
  destruct (len (hexZ r) =? _)%Z, (len (hexZ s) =? _)%Z,
    (len (hexZ v) =? _)%Z; simpl; split; (congruence || tauto || intuition congruence).
Qed.

(** [RSVToSignature] and [SignatureToRSV] are inverse to each other on
    normalised parts: from [hex(r)], [hex(s)], [hex(v)] with 64, 64 and 2
    significant digits the first builds a signature that the second cuts
    back into the same dictionary.  The one fact used of [int(., 16)] is
    that it reads back what [hex] writes. *)
Theorem RSV_round_trip (r s v : Z) :
  (forall z, int16 (hexZ z) = Some z) ->
  (16 ^ 63 <= r < 16 ^ 64)%Z -> (16 ^ 63 <= s < 16 ^ 64)%Z ->
  (16 <= v < 256)%Z ->
  exists parts,
    RSVToSignature int16 (hexZ r) (hexZ s) (hexZ v) = Some parts /\
    partR parts = hexZ r /\ partS parts = hexZ s /\ partV parts = hexZ v /\
    SignatureToRSV int16 (partSignature parts) = Some parts.
Proof.
  intros Hint Hr Hs Hv.
  assert (H63 : (0 < 16 ^ 63)%Z) by (apply Z.pow_pos_nonneg; lia).
  destruct r as [|pr|pr]; try lia.
  destruct s as [|ps|ps]; try lia.
  destruct v as [|pv|pv]; try lia.
  assert (Lr : String.length (hexdigits pr) = 64)
    by (apply (hexdigits_length pr 63); exact Hr).
  assert (Ls : String.length (hexdigits ps) = 64)
    by (apply (hexdigits_length ps 63); exact Hs).
  assert (Lv : String.length (hexdigits pv) = 2)
    by (apply (hexdigits_length pv 1); exact Hv).
  set (d := hexdigits pr ++ hexdigits ps ++ hexdigits pv).
  assert (Hd : String.length d = 130)
    by (unfold d; rewrite !length_append; lia).
  assert (Hsig : "0x" ++ d
                 = hexZ (Z.pos (pos_hex_app pr (pos_hex_app ps pv)))).
  { unfold hexZ, HexString.of_Z, HexString.of_pos.
    fold (hexdigits (pos_hex_app pr (pos_hex_app ps pv))).
    now rewrite !hexdigits_app. }
  exists {| partSignature := "0x" ++ d;
            partR := hexZ (Z.pos pr);
            partS := hexZ (Z.pos ps);
            partV := hexZ (Z.pos pv) |}.
  split; [|repeat split].
  - unfold RSVToSignature. rewrite !Hint.
    assert (Hlen : forall p n, String.length (hexdigits p) = n ->
              len (hexZ (Z.pos p)) = Z.of_nat (S (S n))).
    { intros p n <-. reflexivity. }
    rewrite (Hlen pr 64 Lr), (Hlen ps 64 Ls), (Hlen pv 2 Lv).
    cbn [Z.eqb Z.add Z.of_nat andb]. simpl (_ && _)%bool. cbv iota.
    do 3 f_equal. unfold d.
    assert (Hdig : forall p, slice (hexZ (Z.pos p)) 2 None = hexdigits p)
      by (intros p; exact (hex_digits (Npos p))).
    now rewrite !Hdig.
  - cbn [partSignature]. unfold SignatureToRSV.
    rewrite Hsig, Hint, <- Hsig.
    replace (len ("0x" ++ d)) with 132%Z
      by (unfold len; simpl String.length; lia).
    cbn [Z.eqb Z.add Pos.eqb Pos.add Pos.succ].
    destruct (cuts_132 d Hd) as (HR & HS & HV & _).
    rewrite HR, HS, HV. unfold d.
    rewrite <- Lr at 1. rewrite substring_append_l.
    replace 64 with (String.length (hexdigits pr) + 0) at 1 by lia.
    rewrite substring_append_r.
    rewrite <- Ls at 1. rewrite substring_append_l.
    replace 128 with (String.length (hexdigits pr) + 64) by lia.
    rewrite substring_append_r.
    replace 64 with (String.length (hexdigits ps) + 0) at 1 by lia.
    rewrite substring_append_r.
    rewrite <- Lv at 1. rewrite substring_all.
    reflexivity.
Qed.

End Signatures.

Lemma SignatureToRSV_accepts_witness :
  SignatureToRSV parse_hex ("0x" ++ replicate 130 "7") <> None <->
  (16 ^ 129 <= HexString.to_Z ("0x" ++ replicate 130 "7") < 16 ^ 130)%Z.
Proof.
  apply SignatureToRSV_accepts.
  - reflexivity.
  - apply Z.leb_le. vm_compute. reflexivity.
Defined.

Lemma SignatureToRSV_splits_witness :
  exists r s v,
    String.length r = 64 /\ String.length s = 64 /\ String.length v = 2 /\
    hexZ (HexString.to_Z ("0x" ++ replicate 130 "7")) = "0x" ++ r ++ s ++ v /\
    {| partSignature := "0x" ++ replicate 130 "7";
       partR := "0x" ++ replicate 64 "7";
       partS := "0x" ++ replicate 64 "7";
       partV := "0x77" |}
    = {| partSignature := "0x" ++ r ++ s ++ v;
         partR := "0x" ++ r;
         partS := "0x" ++ s;
         partV := "0x" ++ v |}.
Proof.
  apply (SignatureToRSV_splits parse_hex ("0x" ++ replicate 130 "7")).
  - reflexivity.
  - apply Z.leb_le. vm_compute. reflexivity.
  - vm_compute. reflexivity.
Defined.

Lemma RSVToSignature_accepts_witness :
  RSVToSignature parse_hex
    ("0x" ++ replicate 64 "7") ("0x" ++ replicate 64 "7") "0x01" <> None <->
  (16 ^ 63 <= HexString.to_Z ("0x" ++ replicate 64 "7") < 16 ^ 64)%Z /\
  (16 ^ 63 <= HexString.to_Z ("0x" ++ replicate 64 "7") < 16 ^ 64)%Z /\
  (16 <= 1 < 256)%Z.
Proof.
  apply RSVToSignature_accepts.
  - reflexivity.
  - reflexivity.
  - reflexivity.
  - apply Z.leb_le. vm_compute. reflexivity.
  - apply Z.leb_le. vm_compute. reflexivity.
  - lia.
Defined.

Lemma RSV_round_trip_witness :
  exists parts,
    RSVToSignature parse_hex (hexZ (16 ^ 63)) (hexZ (16 ^ 64 - 1)) (hexZ 27)
      = Some parts /\
    partR parts = hexZ (16 ^ 63) /\ partS parts = hexZ (16 ^ 64 - 1) /\
    partV parts = hexZ 27 /\
    SignatureToRSV parse_hex (partSignature parts) = Some parts.
Proof.
  apply (RSV_round_trip parse_hex).
  - intros z. unfold parse_hex, hexZ. now rewrite HexString.to_Z_of_Z.
  - lia.
  - lia.
  - lia.
Defined.

End SignatureProofs.

(** * Properties of the selector functions *)

Module SelectorProofs.
Import BlockchainUtils MinerProofs.
Local Open Scope string_scope.

Lemma substring_clip (k : nat) (s : string) :
  substring 0 (Nat.min k (String.length s)) s = substring 0 k s.
Proof.
  revert s; induction k as [|k IH]; intros [|c s]; simpl; try reflexivity.
  now rewrite IH.
Qed.

(** [s[:k]] keeps the first [k] characters. *)
Lemma slice_to (s : string) (k : nat) :
  slice s 0 (Some (Z.of_nat k)) = substring 0 k s.
Proof.
  unfold slice, bound, len. simpl (0 <? 0)%Z. cbv iota.
  destruct (Z.ltb_spec (Z.of_nat k) 0) as [Hneg|_]; [lia|].
  rewrite <- substring_clip.
  rewrite Z.min_l by lia. simpl Z.to_nat.
  f_equal. lia.
Qed.

Lemma hexlify_take (m : nat) (bs : list byte) :
  substring 0 (2 * m) (hexlify bs) = hexlify (firstn m bs).
Proof.
  revert bs; induction m as [|m IH]; intros bs.
  - simpl. now rewrite substring_zero.
  - destruct bs as [|b bs]; [reflexivity|].
    cbn [firstn]. rewrite !hexlify_cons.
    replace (2 * S m) with (S (S (2 * m))) by lia.
    simpl. now rewrite IH.
Qed.

(** The first ten characters of a digest written by [.hex()] are the
    selector: ["0x"] and its first four bytes. *)
Lemma selector_prefix (digest : list byte) :
  slice (to_hex digest) 0 (Some 10%Z) = to_hex (firstn 4 digest).
Proof.
  change 10%Z with (Z.of_nat 10). rewrite slice_to.
  unfold to_hex. change 10 with (S (S (2 * 4))).
  cbn [append substring]. now rewrite hexlify_take.
Qed.

Section Selectors.
Variable keccak_text : string -> list byte.

Lemma CrackSelector_body_returns (source_function_name : string)
  (source_param_types target_param_types : list string)
  (salt : nat) (r : res string) :
  CrackSelector_body keccak_text
    (to_hex (keccak_text (prototype source_function_name source_param_types)))
    target_param_types salt = Done r <->
  r = Ok (prototype ("LEVI_" ++ str salt) target_param_types) /\
  GetFunctionSelector keccak_text ("LEVI_" ++ str salt) target_param_types
  = GetFunctionSelector keccak_text source_function_name source_param_types.
Proof.
  unfold CrackSelector_body, GetFunctionSelector.
  rewrite !selector_prefix.
  destruct (String.eqb_spec
              (to_hex (firstn 4 (keccak_text
                 (prototype source_function_name source_param_types))))
              (to_hex (firstn 4 (keccak_text
                 (prototype ("LEVI_" ++ str salt) target_param_types)))))
    as [Heq|Hne].
  - split.
    + intros H. injection H as Hr. split; [now symmetry|now symmetry].
    + intros [-> _]. reflexivity.
  - split; [discriminate|]. intros [_ H]. symmetry in H. contradiction.
Qed.

(** [CrackSelector] returns a prototype exactly for the first salt whose
    function [LEVI_<salt>], taken with the target parameters, has the
    selector of the source function; and it never returns [None]. *)
Theorem CrackSelector_first_collision (source_function_name : string)
  (source_param_types target_param_types : list string) (fuel : nat) :
  (forall function_name,
     CrackSelector keccak_text source_function_name source_param_types
       target_param_types fuel = Some (Some function_name) <->
     exists salt, salt < fuel /\
       function_name = prototype ("LEVI_" ++ str salt) target_param_types /\
       GetFunctionSelector keccak_text ("LEVI_" ++ str salt)
         target_param_types
       = GetFunctionSelector keccak_text source_function_name
           source_param_types /\
       forall j, j < salt ->
         GetFunctionSelector keccak_text ("LEVI_" ++ str j)
           target_param_types
         <> GetFunctionSelector keccak_text source_function_name
              source_param_types) /\
  CrackSelector keccak_text source_function_name source_param_types
    target_param_types fuel <> Some None.
Proof.
  unfold CrackSelector. split.
  - intros function_name. rewrite catch_all_pair, while1_Some. simpl.
    split.
    + intros (salt & Hlt & Hd & Hc).
      apply CrackSelector_body_returns in Hd. destruct Hd as [Hr Hsel].
      injection Hr as ->.
      exists salt. repeat split; auto.
      intros j Hj Hsame. specialize (Hc j Hj).
      assert (Hdone : CrackSelector_body keccak_text
                (to_hex (keccak_text
                   (prototype source_function_name source_param_types)))
                target_param_types j
              = Done (Ok (prototype ("LEVI_" ++ str j) target_param_types)))
        by (apply CrackSelector_body_returns; auto).
      congruence.
    + intros (salt & Hlt & -> & Hsel & Hprev).
      exists salt. repeat split; [exact Hlt| |].
      * apply CrackSelector_body_returns. auto.
      * intros j Hj.
        destruct (CrackSelector_body keccak_text _ target_param_types j)
          as [|r] eqn:E; [reflexivity|].
        apply CrackSelector_body_returns in E. destruct E as [_ E].
        now apply Hprev in E.
  - destruct (while1 _ fuel 0) as [[fn|e]|] eqn:E; simpl; try discriminate.
    apply while1_Some in E. destruct E as (k & _ & Hd & _).
    apply CrackSelector_body_returns in Hd. destruct Hd as [Hd _].
    discriminate.
Qed.

End Selectors.

End SelectorProofs.

(** * Further properties of the address miners *)

Module MinerExtra.
Import BlockchainUtils MinerProofs.
Local Open Scope string_scope.

(** At a forward position the single-constraint miner is exact: a pair is
    returned for the first counter value whose address has the content at
    that offset, if the clock has not reached the budget by then, and for
    no other. *)
Theorem forward_position_found (w : World) (D B content : string)
  (position : Z) (fuel : nat) (salt address : string) :
  (0 <= position)%Z ->
  GetSpecialAddressByCreate2 w D B content position fuel
    = Some (Some (salt, address)) <->
  exists i a, i < fuel /\ salt = "0x" ++ salt_of i /\ address = "0x" ++ a /\
    candidate w D B i = Ok a /\
    occupies content (Z.to_nat position) a /\
    (forall j, j <= i -> timed_out w j = false) /\
    (forall j, j < i ->
       exists aj, candidate w D B j = Ok aj /\
                  ~ occupies content (Z.to_nat position) aj).
Proof.
  intros Hp.
  assert (Htest : forall a b,
            satisfies content position a = b <->
            (occupies content (Z.to_nat position) a <-> b = true)).
  { intros a b. rewrite satisfies_window by lia.
    pose proof (window_iff a content position) as H1.
    pose proof (window_forward a content position Hp) as H2.
    destruct (contains content _), b; intuition congruence. }
  unfold GetSpecialAddressByCreate2, GetSpecialAddressByCreate2_try.
  rewrite catch_all_pair, search_returns. split.
  - intros (i & a & Hi & Hs & Had & Ha & Hok & Ht & Hprev).
    exists i, a. repeat split; auto.
    + now apply (Htest a true).
    + intros j Hj. destruct (Hprev j Hj) as (aj & Haj & Hno).
      exists aj. split; [exact Haj|]. intros Hocc.
      apply (Htest aj false) in Hno. apply Hno in Hocc. discriminate.
  - intros (i & a & Hi & Hs & Had & Ha & Hok & Ht & Hprev).
    exists i, a. repeat split; auto.
    + now apply (Htest a true).
    + intros j Hj. destruct (Hprev j Hj) as (aj & Haj & Hno).
      exists aj. split; [exact Haj|].
      apply (Htest aj false). split; [tauto|discriminate].
Qed.

Lemma forward_position_found_witness :
  GetSpecialAddressByCreate2 counting "" "" "35" 38 6
    = Some (Some
        ("0x0000000000000000000000000000000000000000000000000000000000000005",
         "0x0000000000000000000000000000000000000035")) <->
  exists i a, i < 6 /\
    "0x0000000000000000000000000000000000000000000000000000000000000005"
      = "0x" ++ salt_of i /\
    "0x0000000000000000000000000000000000000035" = "0x" ++ a /\
    candidate counting "" "" i = Ok a /\
    occupies "35" (Z.to_nat 38) a /\
    (forall j, j <= i -> timed_out counting j = false) /\
    (forall j, j < i ->
       exists aj, candidate counting "" "" j = Ok aj /\
                  ~ occupies "35" (Z.to_nat 38) aj).
Proof. apply forward_position_found. lia. Defined.

(** A search whose test agrees, on the derived addresses, with a
    property [P] returns exactly for the first counter value whose address
    has [P]. *)
Lemma returns_first (w : World) (D B : string) (ok : string -> bool)
  (P : string -> Prop) (fuel : nat) (salt address : string) :
  (forall i a, candidate w D B i = Ok a -> (ok a = true <-> P a)) ->
  option_map catch_all (while1 (iteration w D B ok) fuel 0)
    = Some (Some (salt, address)) <->
  exists i a, i < fuel /\ salt = "0x" ++ salt_of i /\ address = "0x" ++ a /\
    candidate w D B i = Ok a /\ P a /\
    (forall j, j <= i -> timed_out w j = false) /\
    (forall j, j < i -> exists aj, candidate w D B j = Ok aj /\ ~ P aj).
Proof.
  intros Htest. rewrite catch_all_pair, search_returns. split.
  - intros (i & a & Hi & Hs & Had & Ha & Hok & Ht & Hprev).
    exists i, a. repeat split; auto.
    + now apply (Htest i a Ha).
    + intros j Hj. destruct (Hprev j Hj) as (aj & Haj & Hno).
      exists aj. split; [exact Haj|]. intros HP.
      apply (Htest j aj Haj) in HP. congruence.
  - intros (i & a & Hi & Hs & Had & Ha & HP & Ht & Hprev).
    exists i, a. repeat split; auto.
    + now apply (Htest i a Ha).
    + intros j Hj. destruct (Hprev j Hj) as (aj & Haj & Hno).
      exists aj. split; [exact Haj|].
      destruct (ok aj) eqn:E; [|reflexivity].
      apply (Htest j aj Haj) in E. contradiction.
Qed.

(** At a negative position other than [-4] whose window ends before the
    end of the address, the single-constraint miner is exact as well: the
    content is looked for at the offset counted from the end. *)
Theorem backward_position_found (w : World) (D B content : string)
  (position : Z) (fuel : nat) (salt address : string) :
  digest32 w ->
  (-40 <= position < 0)%Z -> position <> (-4)%Z ->
  (position + len content < 0)%Z ->
  GetSpecialAddressByCreate2 w D B content position fuel
    = Some (Some (salt, address)) <->
  exists i a, i < fuel /\ salt = "0x" ++ salt_of i /\ address = "0x" ++ a /\
    candidate w D B i = Ok a /\
    occupies content (Z.to_nat (40 + position)) a /\
    (forall j, j <= i -> timed_out w j = false) /\
    (forall j, j < i ->
       exists aj, candidate w D B j = Ok aj /\
                  ~ occupies content (Z.to_nat (40 + position)) aj).
Proof.
  intros Hw Hp Hp4 Hend.
  apply (returns_first w D B (satisfies content position)
           (occupies content (Z.to_nat (40 + position)))).
  intros i a Ha.
  pose proof (candidate_length w D B i a Hw Ha) as Hlen.
  rewrite (satisfies_iff content position a Hlen).
  unfold appears_at, unmatchable, len. rewrite Hlen.
  destruct (Z.eqb_spec position (-4)) as [|_]; [contradiction|].
  destruct (Z.ltb_spec position 0) as [_|]; [|lia].
  change (Z.of_nat 40) with 40%Z. unfold len in Hend.
  split; [tauto|]. intros H. split; [exact H|]. intros (_ & _ & _ & [?|?]); lia.
Qed.

Lemma backward_position_found_witness :
  GetSpecialAddressByCreate2 counting "" "" "03" (-3) 5
    = Some (Some
        ("0x0000000000000000000000000000000000000000000000000000000000000000",
         "0x0000000000000000000000000000000000000030")) <->
  exists i a, i < 5 /\
    "0x0000000000000000000000000000000000000000000000000000000000000000"
      = "0x" ++ salt_of i /\
    "0x0000000000000000000000000000000000000030" = "0x" ++ a /\
    candidate counting "" "" i = Ok a /\
    occupies "03" (Z.to_nat (40 + -3)) a /\
    (forall j, j <= i -> timed_out counting j = false) /\
    (forall j, j < i ->
       exists aj, candidate counting "" "" j = Ok aj /\
                  ~ occupies "03" (Z.to_nat (40 + -3)) aj).
Proof.
  apply backward_position_found.
  - intros s hashed H. injection H as <-. reflexivity.
  - lia.
  - discriminate.
  - reflexivity.
Defined.

(** The two-constraint miner at forward positions is exact: a pair is
    returned for the first counter value whose address has both contents at
    their offsets, and for no other. *)
Theorem both_contents_found (w : World) (D B c1 c2 : string) (p1 p2 : Z)
  (fuel : nat) (salt address : string) :
  (0 <= p1)%Z -> (0 <= p2)%Z ->
  GetSpecialAddressByCreate2_two w D B c1 c2 p1 p2 fuel
    = Some (Some (salt, address)) <->
  exists i a, i < fuel /\ salt = "0x" ++ salt_of i /\ address = "0x" ++ a /\
    candidate w D B i = Ok a /\
    (occupies c1 (Z.to_nat p1) a /\ occupies c2 (Z.to_nat p2) a) /\
    (forall j, j <= i -> timed_out w j = false) /\
    (forall j, j < i ->
       exists aj, candidate w D B j = Ok aj /\
         ~ (occupies c1 (Z.to_nat p1) aj /\ occupies c2 (Z.to_nat p2) aj)).
Proof.
  intros Hp1 Hp2.
  apply (returns_first w D B (satisfies_two c1 c2 p1 p2)
           (fun a => occupies c1 (Z.to_nat p1) a /\
                     occupies c2 (Z.to_nat p2) a)).
  intros i a _. rewrite satisfies_two_windows.
  now rewrite (window_forward a c1 p1 Hp1), (window_forward a c2 p2 Hp2).
Qed.

Lemma both_contents_found_witness :
  GetSpecialAddressByCreate2_two counting "" "" "00" "4" 0 39 6
    = Some (Some
        ("0x0000000000000000000000000000000000000000000000000000000000000004",
         "0x0000000000000000000000000000000000000034")) <->
  exists i a, i < 6 /\
    "0x0000000000000000000000000000000000000000000000000000000000000004"
      = "0x" ++ salt_of i /\
    "0x0000000000000000000000000000000000000034" = "0x" ++ a /\
    candidate counting "" "" i = Ok a /\
    (occupies "00" (Z.to_nat 0) a /\ occupies "4" (Z.to_nat 39) a) /\
    (forall j, j <= i -> timed_out counting j = false) /\
    (forall j, j < i ->
       exists aj, candidate counting "" "" j = Ok aj /\
         ~ (occupies "00" (Z.to_nat 0) aj /\ occupies "4" (Z.to_nat 39) aj)).
Proof. apply both_contents_found; lia. Defined.

Lemma satisfies_empty (position : Z) (address : string) :
  satisfies "" position address = true.
Proof.
  destruct (Z.eq_dec position (-4)) as [->|Hp].
  - rewrite satisfies_sentinel. now destruct (slice address (-4) None).
  - rewrite satisfies_window by exact Hp. apply window_iff, window_empty.
Qed.

(** An empty content is found at once, whatever the position: the pair of
    the counter value [0] is returned. *)
Theorem empty_content_first_salt (w : World) (D B : string) (position : Z)
  (a : string) (fuel : nat) :
  timed_out w 0 = false -> candidate w D B 0 = Ok a -> 0 < fuel ->
  GetSpecialAddressByCreate2 w D B "" position fuel
  = Some (Some
      ("0x0000000000000000000000000000000000000000000000000000000000000000",
       "0x" ++ a)).
Proof.
  intros Ht Ha Hfuel. apply catch_all_pair, search_returns.
  exists 0, a. repeat split; auto.
  - apply satisfies_empty.
  - intros j Hj. replace j with 0 by lia. exact Ht.
  - intros j Hj. lia.
Qed.

Lemma empty_content_first_salt_witness :
  GetSpecialAddressByCreate2 vanity "" "" "" 17 1
  = Some (Some
      ("0x0000000000000000000000000000000000000000000000000000000000000000",
       "0x" ++ "00000000000000000000000000000000000000ab")).
Proof.
  apply empty_content_first_salt; [reflexivity|reflexivity|lia].
Defined.

(** A failure of the hashing primitive, on a deployer address or bytecode
    hash that is not hex, ends the search with [None], the value a time-out
    gives: the caller cannot tell the two apart. *)
Theorem hashing_failure_returns_None (w : World) (D B content : string)
  (position : Z) (i : nat) (e : exn) :
  candidate w D B i = Raise e ->
  (forall j, j <= i -> timed_out w j = false) ->
  (forall j, j < i ->
     exists aj, candidate w D B j = Ok aj /\
                satisfies content position aj = false) ->
  e = ValueError /\
  GetSpecialAddressByCreate2_try w D B content position (S i)
    = Some (Raise ValueError) /\
  GetSpecialAddressByCreate2 w D B content position (S i) = Some None.
Proof.
  intros He Ht Hprev.
  assert (Hv : e = ValueError).
  { unfold candidate, address_of in He.
    destruct (keccak w _); congruence. }
  subst e.
  assert (Hrun : GetSpecialAddressByCreate2_try w D B content position (S i)
                 = Some (Raise ValueError)).
  { apply while1_Some. exists i. simpl. repeat split; [lia| |].
    - unfold iteration. rewrite (Ht i) by lia.
      fold (candidate w D B i). now rewrite He.
    - intros j Hj. apply iteration_continues.
      split; [apply Ht; lia|apply Hprev, Hj]. }
  repeat split; [exact Hrun|].
  unfold GetSpecialAddressByCreate2. now rewrite Hrun.
Qed.

Lemma hashing_failure_returns_None_witness :
  ValueError = ValueError /\
  GetSpecialAddressByCreate2_try
    {| keccak := fun _ => None; time := time vanity |} "zz" "" "ab" 0 (S 0)
    = Some (Raise ValueError) /\
  GetSpecialAddressByCreate2
    {| keccak := fun _ => None; time := time vanity |} "zz" "" "ab" 0 (S 0)
    = Some None.
Proof.
  apply hashing_failure_returns_None.
  - reflexivity.
  - intros j Hj. replace j with 0 by lia. reflexivity.
  - intros j Hj. lia.
Defined.

Lemma to_N_zeros (k : nat) (s : string) :
  HexString.Raw.to_N (replicate k "0" ++ s) 0 = HexString.Raw.to_N s 0.
Proof. induction k as [|k IH]; [reflexivity|exact IH]. Qed.

(** The counter value can be read back from the salt, so that no two
    counter values share a salt. *)
Theorem salt_round_trip (i : nat) :
  HexString.to_N ("0x" ++ salt_of i) = N.of_nat i /\
  forall j, salt_of i = salt_of j -> i = j.
Proof.
  assert (Hread : forall k, HexString.to_N ("0x" ++ salt_of k) = N.of_nat k).
  { intros k. unfold salt_of, rjust. rewrite hex_digits.
    change (HexString.to_N ("0x" ++ ?s)) with (HexString.Raw.to_N s 0).
    rewrite to_N_zeros. destruct (N.of_nat k) as [|p]; [reflexivity|].
    apply (HexString.Raw.to_N_of_pos p "" 0). }
  split; [apply Hread|].
  intros j Hij. apply Nat2N.inj. rewrite <- !Hread. now rewrite Hij.
Qed.

Lemma while1_ends {A : Type} (body : nat -> step A) (n : nat) :
  forall i r, body (i + n) = Done r ->
    exists r', while1 body (S n) i = Some r'.
Proof.
  induction n as [|n IH]; intros i r Hd.
  - rewrite Nat.add_0_r in Hd. simpl. rewrite Hd. eauto.
  - cbn [while1]. destruct (body i) as [|r0]; [|eauto].
    apply (IH (S i) r). now rewrite Nat.add_succ_comm.
Qed.

(** Once a clock reading has reached the budget, both searches are over:
    with the counter value [k] of that reading, [k + 1] passes through the
    loop are enough for a result. *)
Theorem search_ends_with_clock (w : World) (D B : string) (k : nat) :
  timed_out w k = true ->
  (forall content position,
     GetSpecialAddressByCreate2 w D B content position (S k) <> None) /\
  (forall c1 c2 p1 p2,
     GetSpecialAddressByCreate2_two w D B c1 c2 p1 p2 (S k) <> None).
Proof.
  intros Hk.
  assert (Hend : forall ok,
            exists r, while1 (iteration w D B ok) (S k) 0 = Some r).
  { intros ok. apply (while1_ends _ k 0 (Raise TimeOut)).
    apply iteration_timed_out, Hk. }
  split.
  - intros content position.
    unfold GetSpecialAddressByCreate2, GetSpecialAddressByCreate2_try.
    destruct (Hend (satisfies content position)) as [r ->]. discriminate.
  - intros c1 c2 p1 p2.
    unfold GetSpecialAddressByCreate2_two, GetSpecialAddressByCreate2_two_try.
    destruct (Hend (satisfies_two c1 c2 p1 p2)) as [r ->]. discriminate.
Qed.

Lemma search_ends_with_clock_witness :
  (forall content position,
     GetSpecialAddressByCreate2 vanity "" "" content position (S 9)
       <> None) /\
  (forall c1 c2 p1 p2,
     GetSpecialAddressByCreate2_two vanity "" "" c1 c2 p1 p2 (S 9) <> None).
Proof. apply search_ends_with_clock. reflexivity. Defined.

End MinerExtra.
